(** * live_captioning.py: capture -> queue -> batch -> transcribe

    A shallow embedding of the audio pipeline of [live_captioning.py]:
    the bounded queue [audio_q], the capture callback [audio_callback],
    the periodic tick [process_audio], and the start-up sequence of
    [main] (engine loading, device selection, stream opening), with the
    guarded block of lines 432-465 as a whole in [stream_section] and the
    module run as a script in [script].  Around it: the texts of
    [CaptionWindow] and its dragging, the settings dialog with
    [open_settings] and [save_and_close], the configuration file, and the
    discovery of the model path.

    Conventions.
    - Python integers are [Z]; int16 samples are [Z] with the wrap-around
      of numpy's fixed-width arithmetic written out ([wrap16]).
    - float32 values are the rationals they denote ([Q]); the conversions
      the program performs on int16 data are exact in float32 (see
      [f32_of_Z] and [normalize]).
    - A raised exception is the [None] of an [option], or an explicit
      constructor where the code distinguishes outcomes.
    - The module-level globals [audio_q], [model], [window] and the text
      written to stdout are the fields of [State].
    - The audio thread and the Qt timer are interleaved at the granularity
      of whole callbacks and whole ticks.
    - Strings are byte strings; device names and caption texts are read
      exactly where they are ASCII ([isascii], [plain_text]), and the
      properties that depend on lower-casing or on the text of a caption
      view carry that as a hypothesis. *)

From Stdlib Require Import ZArith QArith Qabs Lia.
From stdpp Require Import base list strings pretty gmap.

Local Open Scope Z_scope.

(** ** Configuration constants (lines 14-35) *)

Definition DEVICE_NAME : string := "CABLE Output (VB-Audio Virtual Cable".
Definition SAMPLE_RATE : Z := 16000.
Definition CHANNELS : Z := 1.
Definition BLOCKSIZE : Z := 8000.
Definition UPDATE_INTERVAL_MS : Z := 500.
Definition MAX_QUEUE_SECONDS : Z := 5.

(** [int(x / y)]: true division followed by truncation toward zero. *)
Definition py_int_div (x y : Z) : Z := Z.quot x y.

Definition MAX_QUEUE_SIZE : Z :=
  Z.max 1 (py_int_div (MAX_QUEUE_SECONDS * SAMPLE_RATE) (Z.max 1 BLOCKSIZE)).

Definition AUDIO_QUEUE_MAXSIZE : Z := Z.max 2 (MAX_QUEUE_SIZE * 2).

(** ** [queue.Queue] as used by the program

    The standard-library class, restricted to the non-blocking calls the
    program makes.  [None] stands for [queue.Empty] (in [get_nowait]) and
    for [queue.Full] (in [put_nowait]).  A [maxsize] of zero or less means
    an unbounded queue, as in Python. *)
Module PyQueue.

Record Queue (A : Type) : Type := mk { maxsize : Z; items : list A }.
Arguments mk {A}.
Arguments maxsize {A}.
Arguments items {A}.

Section Ops.
Context {A : Type}.

Definition new (n : Z) : Queue A := mk n [].

Definition qsize (q : Queue A) : Z := Z.of_nat (length (items q)).

Definition empty (q : Queue A) : bool := qsize q =? 0.

Definition full (q : Queue A) : bool :=
  (0 <? maxsize q) && (maxsize q <=? qsize q).

Definition put_nowait (x : A) (q : Queue A) : option (Queue A) :=
  if (0 <? maxsize q) && (maxsize q <=? qsize q) then None
  else Some (mk (maxsize q) (items q ++ [x])).

Definition get_nowait (q : Queue A) : option (A * Queue A) :=
  match items q with
  | [] => None
  | x :: rest => Some (x, mk (maxsize q) rest)
  end.
End Ops.

End PyQueue.

(** ** Sample buffers *)

(** One block delivered by the stream: [BLOCKSIZE] frames of [CHANNELS = 1]
    int16 samples (the stream is opened with [dtype=DTYPE='int16']). *)
Definition Frame : Type := list Z.

Definition int16_min : Z := -32768.
Definition int16_max : Z := 32767.
Definition is_int16 (s : Z) : Prop := int16_min <= s <= int16_max.

(** Two's-complement wrap-around of a 16-bit result. *)
Definition wrap16 (z : Z) : Z := (z + 32768) mod 65536 - 32768.

(** [np.abs] on an int16 array: the result is int16 again, so
    [abs(-32768)] wraps back to [-32768]. *)
Definition np_abs_int16 (a : list Z) : list Z := map (fun s => wrap16 (Z.abs s)) a.

(** [np.max]: raises [ValueError] on a zero-size array. *)
Definition np_max (a : list Z) : option Z :=
  match a with
  | [] => None
  | x :: rest => Some (fold_left Z.max rest x)
  end.

Definition Qltb (x y : Q) : bool := negb (Qle_bool y x).

(** ** Engine handle, caption window, observable events *)

Inductive Device := cuda | cpu.
Inductive ComputeType := float16 | int8.

(** A loaded [WhisperModel]: what it was built from. *)
Record Model : Type := mkModel {
  model_ref : string;
  model_device : Device;
  model_compute_type : ComputeType
}.

(** [CaptionWindow]: the fields [append_transcript] and [set_mode] touch.
    Geometry and widget visibility are not represented. *)
Record CaptionWindow : Type := mkWindow {
  mode : string;
  big_label : string;
  history : string;
  comprehensive_text : string
}.

Definition newline : string := String (Ascii.ascii_of_nat 10) EmptyString.

Definition CaptionWindow_init : CaptionWindow :=
  mkWindow "live" "Listening to system audio..." "" "".

Definition set_mode (mode_name : string) (w : CaptionWindow) : CaptionWindow :=
  mkWindow mode_name (big_label w) (history w) (comprehensive_text w).

(** Newest text is inserted at the start of the history (or of the
    comprehensive transcript).  The two views are represented by their
    plain text, which is what [insertText] adds to for a text without
    carriage returns and Unicode separators (see [plain_text]). *)
Definition append_transcript (text : string) (w : CaptionWindow) : CaptionWindow :=
  if String.eqb (mode w) "live" then
    mkWindow (mode w) text (text +:+ newline +:+ history w) (comprehensive_text w)
  else
    mkWindow (mode w) (big_label w) (history w)
             (text +:+ newline +:+ comprehensive_text w).

Inductive Event : Type :=
| Print (line : string)
| EngineLoad (ref : string) (dev : Device) (ct : ComputeType)
| EngineTranscribe (m : Model) (audio : list Q) (vad_filter : bool) (language : string).

Record State : Type := mkState {
  audio_q : PyQueue.Queue Frame;
  model : option Model;
  window : option CaptionWindow;
  trace : list Event
}.

Definition set_audio_q (q : PyQueue.Queue Frame) (st : State) : State :=
  mkState q (model st) (window st) (trace st).
Definition set_model (m : option Model) (st : State) : State :=
  mkState (audio_q st) m (window st) (trace st).
Definition set_window (w : option CaptionWindow) (st : State) : State :=
  mkState (audio_q st) (model st) w (trace st).
Definition emit (e : Event) (st : State) : State :=
  mkState (audio_q st) (model st) (window st) (trace st ++ [e]).
Definition print (line : string) (st : State) : State := emit (Print line) st.

(** The module as it stands right after import. *)
Definition initial_state : State :=
  mkState (PyQueue.new AUDIO_QUEUE_MAXSIZE) None None [].

(** ** [audio_callback] (lines 41-61) *)

(** Lines 52-61: make room by dropping the oldest block when the queue is
    full, then enqueue; both [queue.Empty] and [queue.Full] are swallowed. *)
Definition push_drop_oldest (x : Frame) (q : PyQueue.Queue Frame) : PyQueue.Queue Frame :=
  let q1 :=
    if PyQueue.full q then
      match PyQueue.get_nowait q with
      | Some (_, q') => q'
      | None => q
      end
    else q in
  match PyQueue.put_nowait x q1 with
  | Some q2 => q2
  | None => q1
  end.

(** Line 49: [float(np.max(np.abs(indata)))]. *)
Definition max_amp (indata : Frame) : option Q :=
  m ← np_max (np_abs_int16 indata); Some (inject_Z m).

(** What a callback hands back to the audio library: it either returns
    normally or lets an exception escape (here only the [ValueError] of
    [np.max] on a zero-length block).  Both carry the state reached. *)
Inductive CallbackResult : Type :=
| Continue (st : State)
| Aborted (st : State).

(** [status] is [None] when no flag is set, otherwise its printed form. *)
Definition audio_callback (indata : Frame) (status : option string) (st : State)
  : CallbackResult :=
  let st1 :=
    match status with
    | Some s => print ("[AUDIO CALLBACK WARNING] " +:+ s) st
    | None => st
    end in
  match max_amp indata with
  | None => Aborted st1
  | Some a =>
      if Qltb (1 # 100) a
      then Continue (set_audio_q (push_drop_oldest indata (audio_q st1)) st1)
      else Continue st1
  end.

(** A run of callbacks, in delivery order; it ends at the first one that
    lets an exception escape. *)
Fixpoint callbacks (ds : list (Frame * option string)) (st : State) : CallbackResult :=
  match ds with
  | [] => Continue st
  | (f, s) :: rest =>
      match audio_callback f s st with
      | Continue st' => callbacks rest st'
      | Aborted st' => Aborted st'
      end
  end.

(** The test of line 50 on a block. *)
Definition admitted (indata : Frame) : bool :=
  match max_amp indata with
  | Some a => Qltb (1 # 100) a
  | None => false
  end.

(** ** Normalisation and the silence gate (lines 290-300) *)

(** Sample formats an input stream can be opened with. *)
Inductive IntDType := np_int8 | np_uint8 | np_int16 | np_int32.

Inductive ndarray : Type :=
| IntArray (dt : IntDType) (a : list Z)
| Float32Array (a : list Q).

(** [astype(np.float32)] on an integer: round to nearest, ties to even,
    on a 24-bit significand.  Exact below [2^24]. *)
Definition f32_of_Z (z : Z) : Q :=
  let a := Z.abs z in
  let e := Z.log2 a - 23 in
  if e <=? 0 then inject_Z z
  else
    let q := a / 2 ^ e in
    let r := a mod 2 ^ e in
    let half := 2 ^ (e - 1) in
    let q' := if (half <? r) || ((r =? half) && Z.odd q) then q + 1 else q in
    inject_Z (Z.sgn z * q' * 2 ^ e).

(** Lines 292-296: "normalize only if int16". *)
Definition normalize (audio : ndarray) : list Q :=
  match audio with
  | IntArray np_int16 a => map (fun s => (f32_of_Z s / 32768)%Q) a
  | IntArray _ a => map f32_of_Z a
  | Float32Array a => a
  end.

Definition qmax (x y : Q) : Q := if Qle_bool x y then y else x.

(** Line 298: [np.max(np.abs(audio)) if audio.size else 0]. *)
Definition peak_of (audio : list Q) : Q :=
  match audio with
  | [] => 0%Q
  | x :: rest => fold_left qmax (map Qabs rest) (Qabs x)
  end.

Definition SILENCE_THRESHOLD : Q := 1 # 1000.

(** Line 299: [peak < 0.001]. *)
Definition is_silent (audio : list Q) : bool := Qltb (peak_of audio) SILENCE_THRESHOLD.

(** ** The speech engine, as seen from [process_audio]

    [model.transcribe] returns a lazy, finite sequence of segments; the
    call itself, or any later step of the iteration, may raise. *)
Inductive SegStream : Type :=
| SegEnd
| SegNext (text : string) (rest : SegStream)
| SegRaise (exc : string).

(** The behaviour of the engine on one call:
    [transcribe(audio, vad_filter, language)] on handle [m]. *)
Definition Engine : Type := Model -> list Q -> bool -> string -> SegStream.

(** ** [process_audio] (lines 270-321) *)

(** Lines 279-285: at most [n] non-blocking gets, stopping at the first
    [queue.Empty]. *)
Fixpoint drain_loop (n : nat) (chunks : list Frame) (q : PyQueue.Queue Frame)
  : list Frame * PyQueue.Queue Frame :=
  match n with
  | O => (chunks, q)
  | S n' =>
      match PyQueue.get_nowait q with
      | Some (x, q') => drain_loop n' (chunks ++ [x]) q'
      | None => (chunks, q)
      end
  end.

Definition drain_up_to (n : nat) (q : PyQueue.Queue Frame)
  : list Frame * PyQueue.Queue Frame := drain_loop n [] q.

(** Lines 309-316: forward one segment to the window (stdout when the
    window call raises, as it does while [window] is still [None]). *)
Definition forward_segment (text : string) (st : State) : State :=
  let st1 :=
    match window st with
    | Some w => set_window (Some (append_transcript text w)) st
    | None => print text st
    end in
  print ("[TRANSCRIPTION] " +:+ text) st1.

(** Lines 306-321: consume the engine's output inside the [try]. *)
Fixpoint consume (segments : SegStream) (st : State) : State :=
  match segments with
  | SegEnd => st
  | SegNext text rest => consume rest (forward_segment text st)
  | SegRaise e => print ("[ERROR] Transcription failed: " +:+ e) st
  end.

Definition NOT_LOADED_MSG : string :=
  "[ERROR] Model not loaded yet; skipping transcription.".

Definition process_audio (engine : Engine) (st : State) : State :=
  if PyQueue.empty (audio_q st) then st
  else
    let '(chunks, q') := drain_up_to (Z.to_nat MAX_QUEUE_SIZE) (audio_q st) in
    let st1 := set_audio_q q' st in
    match chunks with
    | [] => st1
    | _ :: _ =>
        let audio := normalize (IntArray np_int16 (concat chunks)) in
        if is_silent audio then st1
        else
          match model st1 with
          | None => print NOT_LOADED_MSG st1
          | Some m =>
              consume (engine m audio true "en")
                      (emit (EngineTranscribe m audio true "en") st1)
          end
    end.

(** ** [find_device_by_name] (lines 323-335) *)

(** [str.lower] on a string of ASCII characters: the letters [A] to [Z]
    become [a] to [z] and nothing else changes.  Other characters are left
    as they are, where Python follows the Unicode case tables; properties
    that depend on the lower-casing are stated for ASCII names (see
    [isascii]). *)
Definition lower_ascii (c : Ascii.ascii) : Ascii.ascii :=
  let n := Ascii.nat_of_ascii c in
  if ((65 <=? n) && (n <=? 90))%nat then Ascii.ascii_of_nat (n + 32) else c.

Fixpoint lower (s : string) : string :=
  match s with
  | EmptyString => EmptyString
  | String c rest => String (lower_ascii c) (lower rest)
  end.

(** [sub in s] on strings. *)
Fixpoint contains (sub s : string) : bool :=
  String.prefix sub s ||
  match s with
  | EmptyString => false
  | String _ rest => contains sub rest
  end.

(** The result of [sd.query_devices()]: [None] when the query raises;
    an entry is [None] when reading its ['name'] raises. *)
Definition DeviceList : Type := option (list (option string)).

Fixpoint find_from (idx : nat) (name_substring : string) (devs : list (option string))
  : option nat :=
  match devs with
  | [] => None
  | Some name :: rest =>
      if contains (lower name_substring) (lower name) then Some idx
      else find_from (S idx) name_substring rest
  | None :: rest => find_from (S idx) name_substring rest
  end.

Definition find_device_by_name (devices : DeviceList) (name_substring : string)
  : option nat :=
  match devices with
  | None => None
  | Some devs => find_from 0 name_substring devs
  end.

(** ** [main] (lines 356-465) *)

(** Lines 382-388.  [ImportFailed] is an import that raises, which leaves
    the name [WhisperModel] unbound; a package that imports but has no
    [__version__] is not represented. *)
Inductive ImportResult := Imported (version : string) | ImportFailed (exc : string).
Inductive Answer := AnswerYes | AnswerNo | DialogRaised.
Inductive LoadResult := Loaded | LoadFailed (exc : string).

Inductive LoopEvent : Type :=
| Callback (indata : Frame) (status : option string)
| Tick (engine : Engine).

(** Everything [main] obtains from outside the program. *)
Record Env : Type := mkEnv {
  (** [import faster_whisper] (lines 382-388) *)
  faster_whisper : ImportResult;
  (** [model_path] after lines 370-381 *)
  model_path : option string;
  (** [QMessageBox.question] (lines 397-404); [DialogRaised] leaves
      [answer = None].  The import on line 398 is from the package line 8
      has already imported, so the name [QMessageBox] is bound. *)
  consent : Answer;
  (** behaviour of the [WhisperModel] constructor *)
  load : string -> Device -> ComputeType -> LoadResult;
  (** [load_config().get('device_name')], for a configuration that is a
      JSON object (see [ConfigValue] for the other ones) *)
  config_device_name : option string;
  devices : DeviceList;
  (** [sd.InputStream(...)]: [None] when the stream opens, otherwise the
      exception it raises *)
  open_stream : option nat -> option string;
  (** what happens while [app.exec_()] runs *)
  events : list LoopEvent
}.

(** Python truthiness of an optional string. *)
Definition truthy (s : option string) : bool :=
  match s with
  | Some (String _ _) => true
  | _ => false
  end.

(** [x or default] on optional strings. *)
Definition or_default (s : option string) (default : string) : string :=
  match s with
  | Some (String c r) => String c r
  | _ => default
  end.

(** Reading the local name [WhisperModel] after its import failed. *)
Definition UNBOUND_WHISPER : string :=
  "cannot access local variable 'WhisperModel' where it is not associated with a value".

(** One evaluation of [WhisperModel(ref, device=dev, compute_type=ct)]. *)
Definition WhisperModel (env : Env) (ref : string) (dev : Device) (ct : ComputeType)
  (st : State) : State * (Model + string) :=
  match faster_whisper env with
  | ImportFailed _ => (st, inr UNBOUND_WHISPER)
  | Imported _ =>
      let st1 := emit (EngineLoad ref dev ct) st in
      match load env ref dev ct with
      | Loaded => (st1, inl (mkModel ref dev ct))
      | LoadFailed e => (st1, inr e)
      end
  end.

(** Lines 413-420: the handler of the outer [try]. *)
Definition cpu_fallback (env : Env) (e : string) (st : State) : State :=
  let st1 := print ("[WARN] GPU model load failed: " +:+ e +:+ ". Falling back to CPU.") st in
  match WhisperModel env "tiny" cpu int8 st1 with
  | (st2, inl m) =>
      print "[INIT] Model loaded on CPU successfully." (set_model (Some m) st2)
  | (st2, inr e2) =>
      set_model None (print ("[ERROR] CPU model load failed: " +:+ e2) st2)
  end.

(** Lines 393-394 and 408-409: a load on CUDA inside the outer [try]. *)
Definition gpu_attempt (env : Env) (ref : string) (st : State) : State :=
  match WhisperModel env ref cuda float16 st with
  | (st1, inl m) =>
      print "[INIT] Model loaded on CUDA successfully." (set_model (Some m) st1)
  | (st1, inr e) => cpu_fallback env e st1
  end.

Definition DECLINED_MSG : string :=
  "[INIT] No local model and user declined auto-download. Please download a model and place it under models/whisper/<model-dir> or set MODEL_PATH.".

(** Lines 382-420. *)
Definition load_engine (env : Env) (st : State) : State :=
  let st1 :=
    match faster_whisper env with
    | Imported v => print ("[INIT] faster_whisper version: " +:+ v) st
    | ImportFailed e => print ("[ERROR] faster_whisper import failed: " +:+ e) st
    end in
  let st2 := print "[INIT] Loading Whisper model (prefer local path if set)..." st1 in
  if truthy (model_path env) then
    let p := or_default (model_path env) "" in
    gpu_attempt env p (print ("[INIT] Using local model path: " +:+ p) st2)
  else
    match consent env with
    | AnswerYes =>
        gpu_attempt env "tiny"
          (print "[INIT] User agreed to download model; loading model by name (may download weights)..." st2)
    | AnswerNo | DialogRaised =>
        set_model None (print DECLINED_MSG st2)
    end.

(** Lines 449-453: list the devices until an entry cannot be read. *)
Fixpoint list_devices (idx : nat) (devs : list (option string)) (st : State) : State :=
  match devs with
  | Some name :: rest =>
      list_devices (S idx) rest (print ("  " +:+ pretty idx +:+ ": " +:+ name) st)
  | _ => st
  end.

(** Lines 435-453: resolve the device index handed to the stream. *)
Definition select_device (env : Env) (st : State) : option nat * State :=
  let prefer_name := or_default (config_device_name env) DEVICE_NAME in
  let '(device_idx, st1) :=
    if truthy (Some prefer_name) then
      match find_device_by_name (devices env) prefer_name with
      | Some i =>
          (Some i, print ("[INIT] Using device index " +:+ pretty i +:+
                          " for device name match: '" +:+ prefer_name +:+ "'") st)
      | None => (None, st)
      end
    else (None, st) in
  match device_idx with
  | Some i => (Some i, st1)
  | None =>
      match find_device_by_name (devices env) DEVICE_NAME with
      | Some i =>
          (Some i, print ("[INIT] Using device index " +:+ pretty i +:+
                          " for default VB-Cable name heuristic") st1)
      | None =>
          let st2 := print ("[INIT] VB-Cable device not auto-detected; using default input."
                            +:+ newline +:+ "Available devices:") st1 in
          (None, match devices env with
                 | Some devs => list_devices 0 devs st2
                 | None => st2
                 end)
      end
  end.

(** The body of [with sd.InputStream(...): app.exec_()]: callbacks and
    timer ticks in the order they happen.  [active] is false once a
    callback has let an exception escape, after which the audio library
    stops calling it. *)
Fixpoint event_loop (evs : list LoopEvent) (active : bool) (st : State) : State :=
  match evs with
  | [] => st
  | Callback indata status :: rest =>
      if active then
        match audio_callback indata status st with
        | Continue st' => event_loop rest true st'
        | Aborted st' => event_loop rest false st'
        end
      else event_loop rest false st
  | Tick engine :: rest => event_loop rest active (process_audio engine st)
  end.

Inductive Exit : Type :=
| Exited (code : Z) (st : State)
| Returned (st : State).

Definition final_state (x : Exit) : State :=
  match x with Exited _ st => st | Returned st => st end.

(** [main] from line 369 on, for a process in which the window of line 424
    comes up, the configuration is a JSON object and the [with] statement
    is left without an exception.  [stream_section] and [script] below
    describe lines 432-465 and the start of the process without these
    restrictions. *)
Definition main (env : Env) : Exit :=
  let st1 := load_engine env initial_state in
  let st2 := set_window (Some CaptionWindow_init) st1 in
  let st3 := print "[INIT] Starting audio stream..." st2 in
  let '(device_idx, st4) := select_device env st3 in
  match open_stream env device_idx with
  | Some e => Exited 1 (print ("[ERROR] Audio stream failed: " +:+ e) st4)
  | None => Returned (event_loop (events env) true st4)
  end.

(** ** Observations on traces *)

Definition is_transcribe (e : Event) : bool :=
  match e with EngineTranscribe _ _ _ _ => true | _ => false end.

Definition is_load (e : Event) : bool :=
  match e with EngineLoad _ _ _ => true | _ => false end.

Definition transcribe_calls (t : list Event) : nat := length (filter is_transcribe t).
Definition load_attempts (t : list Event) : list Event := filter is_load t.

(** The last [n] elements of a list. *)
Definition lastn {A : Type} (n : nat) (l : list A) : list A := drop (length l - n) l.

(** The queue as the program creates it: bounded by [AUDIO_QUEUE_MAXSIZE]
    and never holding more. *)
Definition queue_ok (q : PyQueue.Queue Frame) : Prop :=
  PyQueue.maxsize q = AUDIO_QUEUE_MAXSIZE /\ PyQueue.qsize q <= AUDIO_QUEUE_MAXSIZE.

(** The batch a tick would assemble from a queue. *)
Definition batch_of (q : PyQueue.Queue Frame) : list Q :=
  normalize (IntArray np_int16 (concat (fst (drain_up_to (Z.to_nat MAX_QUEUE_SIZE) q)))).

Definition segments_of (texts : list string) : SegStream :=
  foldr SegNext SegEnd texts.

(** The queue a tick leaves behind. *)
Definition drained_queue (q : PyQueue.Queue Frame) : PyQueue.Queue Frame :=
  PyQueue.mk (PyQueue.maxsize q) (drop (Z.to_nat MAX_QUEUE_SIZE) (PyQueue.items q)).

(** What [consume] does, written out: the texts the engine yields before
    it stops, and the lines that reach stdout. *)
Fixpoint stream_texts (segments : SegStream) : list string :=
  match segments with
  | SegEnd => []
  | SegNext text rest => text :: stream_texts rest
  | SegRaise _ => []
  end.

Fixpoint consume_lines (has_window : bool) (segments : SegStream) : list string :=
  match segments with
  | SegEnd => []
  | SegNext text rest =>
      (if has_window then [] else [text])
        ++ ("[TRANSCRIPTION] " +:+ text) :: consume_lines has_window rest
  | SegRaise e => ["[ERROR] Transcription failed: " +:+ e]
  end.

Definition show_all (texts : list string) (w : CaptionWindow) : CaptionWindow :=
  foldl (fun w text => append_transcript text w) w texts.

Definition has_window (st : State) : bool :=
  match window st with Some _ => true | None => false end.

(** A stream that yields [texts] and then raises [e]. *)
Definition segments_then_raise (texts : list string) (e : string) : SegStream :=
  foldr SegNext (SegRaise e) texts.

(** The device index [main] hands to [sd.InputStream]. *)
Definition chosen_device (env : Env) : option nat := fst (select_device env initial_state).

(** A step that only writes lines to stdout. *)
Definition only_prints (st st' : State) : Prop :=
  exists lines,
    st' = mkState (audio_q st) (model st) (window st) (trace st ++ map Print lines).

(** The state in which [main] reaches [sd.InputStream(...)]. *)
Definition before_stream (env : Env) : State :=
  snd (select_device env
         (print "[INIT] Starting audio stream..."
            (set_window (Some CaptionWindow_init) (load_engine env initial_state)))).

Definition with_events (evs : list LoopEvent) (env : Env) : Env :=
  mkEnv (faster_whisper env) (model_path env) (consent env) (load env)
        (config_device_name env) (devices env) (open_stream env) evs.

(** ** The configuration file (lines 338-353) *)

(** What is found at [CONFIG_PATH]: no file, a file that [open] or
    [json.load] rejects, or a JSON object with string values (the only kind
    [save_config] is ever given). *)
Inductive ConfigFile : Type :=
| NoFile
| Unreadable
| Holds (cfg : gmap string string).

Definition load_config (file : ConfigFile) : gmap string string :=
  match file with
  | Holds cfg => cfg
  | NoFile | Unreadable => ∅
  end.

(** How writing the file goes: [truncated] tells whether the failure came
    after [open(..., 'w')] had already emptied the file. *)
Inductive WriteOutcome : Type :=
| WriteOk
| WriteFails (exc : string) (truncated : bool).

(** The file afterwards and the lines printed. *)
Definition save_config (cfg : gmap string string) (w : WriteOutcome) (file : ConfigFile)
  : ConfigFile * list string :=
  match w with
  | WriteOk => (Holds cfg, [])
  | WriteFails e truncated =>
      (if truncated then Unreadable else file,
       ["[WARN] Failed to save config: " +:+ e])
  end.

(** ** Model path discovery (lines 369-381) *)

(** [os.listdir(base)] with [os.path.isdir] of each entry. *)
Inductive DirListing : Type :=
| NotADirectory
| ListingRaises
| Entries (l : list (string * bool)).

(** [env_var] is [os.environ.get('MODEL_PATH')], [base] the directory
    [models/whisper] next to the script, [sep] the separator [os.path.join]
    inserts. *)
Definition resolve_model_path (sep : string) (env_var : option string)
  (base : string) (listing : DirListing) : option string :=
  if truthy env_var then env_var
  else
    match listing with
    | Entries l =>
        match List.filter snd l with
        | (d, _) :: _ => Some (base +:+ sep +:+ d)
        | [] => env_var
        end
    | NotADirectory | ListingRaises => env_var
    end.

(** ** [SettingsWindow] (lines 204-268) *)

Definition NO_DEVICES : string := "(no devices found)".

(** Lines 210-217: the texts of the device combo box. *)
Definition device_items (devices : DeviceList) : list string :=
  match devices with
  | None => [NO_DEVICES]
  | Some devs => imap (fun i d => pretty i +:+ ": " +:+ default "" d) devs
  end.

(** Lines 223-226: the first item whose text contains the saved name. *)
Fixpoint first_containing (idx : nat) (needle : string) (texts : list string)
  : option nat :=
  match texts with
  | [] => None
  | t :: rest =>
      if contains (lower needle) (lower t) then Some idx
      else first_containing (S idx) needle rest
  end.

(** The dialog: combo texts, current combo index ([None] is Qt's [-1]),
    and which of the two exclusive radio buttons is checked. *)
Record SettingsWindow : Type := mkSettings {
  combo_items : list string;
  combo_current : option nat;
  mode_live_checked : bool
}.

(** [__init__], lines 205-255. *)
Definition SettingsWindow_init (file : ConfigFile) (devices : DeviceList)
  : SettingsWindow :=
  let texts := device_items devices in
  let first := match texts with [] => None | _ :: _ => Some 0%nat end in
  let cfg := load_config file in
  let sel_name := cfg !! "device_name" in
  let current :=
    if truthy sel_name then
      match first_containing 0 (or_default sel_name "") texts with
      | Some idx => Some idx
      | None => first
      end
    else first in
  let mode_sel := default "live" (cfg !! "mode") in
  mkSettings texts current (String.eqb mode_sel "live").

Definition currentText (dlg : SettingsWindow) : string :=
  match combo_current dlg with
  | Some i => default "" (combo_items dlg !! i)
  | None => ""
  end.

Fixpoint drop_chars (n : nat) (s : string) : string :=
  match n, s with
  | S n', String _ rest => drop_chars n' rest
  | _, _ => s
  end.

(** [s.split(sep, 1)] when it yields two parts; [None] when [sep] does not
    occur and the result has a single element. *)
Fixpoint split_once (sep s : string) : option (string * string) :=
  if String.prefix sep s then Some ("", drop_chars (String.length sep) s)
  else
    match s with
    | EmptyString => None
    | String c rest =>
        match split_once sep rest with
        | Some (before, after) => Some (String c before, after)
        | None => None
        end
    end.

(** Lines 258-262: the device name taken from the combo text. *)
Definition device_name_of (text : string) : string :=
  match split_once ": " text with
  | Some (_, name) => name
  | None => text
  end.

(** [save_and_close], lines 257-268 (the information box aside). *)
Definition save_and_close (dlg : SettingsWindow) (w : WriteOutcome) (file : ConfigFile)
  : ConfigFile * list string :=
  let name := device_name_of (currentText dlg) in
  let mode := if mode_live_checked dlg then "live" else "comprehensive" in
  save_config (<["device_name" := name]> (<["mode" := mode]> ∅)) w file.

(** [QButtonGroup]: buttons with their ids.  [addButton] without an id
    assigns [-2] to the first button and one less than the smallest id in
    use to the next ones; [button] looks an id up. *)
Inductive RadioButton := ModeLive | ModeComp.

Definition auto_id (g : list (RadioButton * Z)) : Z :=
  match map snd g with
  | [] => -2
  | i :: rest => fold_left Z.min rest i - 1
  end.

Definition addButton (b : RadioButton) (g : list (RadioButton * Z))
  : list (RadioButton * Z) := g ++ [(b, auto_id g)].

Definition button (id : Z) (g : list (RadioButton * Z)) : option RadioButton :=
  match List.find (fun p => snd p =? id) g with
  | Some (b, _) => Some b
  | None => None
  end.

(** Lines 233-235. *)
Definition mode_group : list (RadioButton * Z) :=
  addButton ModeComp (addButton ModeLive []).

(** [setChecked] on a radio button of the exclusive group: checking one
    unchecks the other, unchecking the checked one is ignored. *)
Definition setChecked (b : RadioButton) (checked : bool) (dlg : SettingsWindow)
  : SettingsWindow :=
  if checked then
    mkSettings (combo_items dlg) (combo_current dlg)
               (match b with ModeLive => true | ModeComp => false end)
  else dlg.

(** What the user does with the dialog before closing it. *)
Inductive Press := PressSave | PressCancel.

Record UserInput : Type := mkUser {
  pick_device : option nat;
  pick_live : option bool;
  press : Press
}.

Definition apply_user (u : UserInput) (dlg : SettingsWindow) : SettingsWindow :=
  let current :=
    match pick_device u with
    | Some j => if (j <? length (combo_items dlg))%nat then Some j else combo_current dlg
    | None => combo_current dlg
    end in
  let live :=
    match pick_live u with
    | Some b => b
    | None => mode_live_checked dlg
    end in
  mkSettings (combo_items dlg) current live.

(** ** [CaptionWindow.open_settings] (lines 179-190) *)

Inductive SettingsResult : Type :=
| SettingsRaised (exc : string)
| SettingsDone (w : CaptionWindow) (file : ConfigFile) (out : list string).

Definition NONE_HAS_NO_SETCHECKED : string :=
  "'NoneType' object has no attribute 'setChecked'".

Definition open_settings (w : CaptionWindow) (devices : DeviceList) (u : UserInput)
  (wo : WriteOutcome) (file : ConfigFile) : SettingsResult :=
  let dlg := SettingsWindow_init file devices in
  let pref := load_config file !! "mode" in
  let preloaded :=
    if truthy pref then
      match button 0 mode_group with
      | Some b => Some (setChecked b (String.eqb (or_default pref "") "live") dlg)
      | None => None
      end
    else Some dlg in
  match preloaded with
  | None => SettingsRaised NONE_HAS_NO_SETCHECKED
  | Some dlg1 =>
      match press u with
      | PressCancel => SettingsDone w file []
      | PressSave =>
          let '(file', out) := save_and_close (apply_user u dlg1) wo file in
          let mode := default "live" (load_config file' !! "mode") in
          SettingsDone (set_mode mode w) file' out
      end
  end.

(** The environment of the next start, as far as the configuration file
    decides it. *)
Definition config_device_name_of (file : ConfigFile) : option string :=
  load_config file !! "device_name".

(** ** Further observations *)

(** A call to [transcribe] as [process_audio] makes it: on a batch that
    passed the silence gate, with the VAD filter on and English as the
    language. *)
Definition good_call (e : Event) : bool :=
  match e with
  | EngineTranscribe _ audio vad_filter language =>
      negb (is_silent audio) && vad_filter && String.eqb language "en"
  | _ => true
  end.

Definition is_tick (ev : LoopEvent) : bool :=
  match ev with Tick _ => true | Callback _ _ => false end.

(** The blocks the [j]-th of a run of ticks takes from the queue. *)
Definition drained_by_tick (engines : list Engine) (st : State) (j : nat) : list Frame :=
  fst (drain_up_to (Z.to_nat MAX_QUEUE_SIZE)
         (audio_q (event_loop (map Tick (take j engines)) true st))).

(** Texts as they sit in a caption view: one per line. *)
Definition lines_of (texts : list string) : string :=
  foldr (fun t acc => t +:+ newline +:+ acc) "" texts.

Definition colon : Ascii.ascii := Ascii.ascii_of_nat 58.

(** No character of the string is a colon. *)
Fixpoint colon_free (s : string) : bool :=
  match s with
  | EmptyString => true
  | String c rest => negb (Ascii.eqb c colon) && colon_free rest
  end.

Definition with_config_device_name (name : option string) (env : Env) : Env :=
  mkEnv (faster_whisper env) (model_path env) (consent env) (load env)
        name (devices env) (open_stream env) (events env).

(** [sub in s], spelled out. *)
Definition occurs_in (sub s : string) : Prop :=
  exists before after, s = before +:+ sub +:+ after.

(** ** Dragging the frameless window (lines 192-201) *)

(** A [QPoint]; it is falsy in a condition exactly when it is the null
    point [(0, 0)]. *)
Definition QPoint : Type := (Z * Z)%type.

Definition point_sub (p q : QPoint) : QPoint := (fst p - fst q, snd p - snd q).
Definition point_truthy (p : QPoint) : bool := negb ((fst p =? 0) && (snd p =? 0)).

(** Where the window is, and [self.drag_position] ([None] until the first
    press with the left button). *)
Record Placement : Type := mkPlacement {
  top_left : QPoint;
  drag_position : option QPoint
}.

(** [left] tells whether [event.button()] is the left button. *)
Definition mousePressEvent (left : bool) (globalPos : QPoint) (g : Placement) : Placement :=
  if left then mkPlacement (top_left g) (Some (point_sub globalPos (top_left g)))
  else g.

(** [only_left] tells whether [event.buttons()] is exactly the left
    button. *)
Definition mouseMoveEvent (only_left : bool) (globalPos : QPoint) (g : Placement)
  : Placement :=
  match drag_position g with
  | Some d =>
      if point_truthy d && only_left
      then mkPlacement (point_sub globalPos d) (drag_position g)
      else g
  | None => g
  end.

(** A drag: moves with only the left button held, in order. *)
Definition drag_moves (positions : list QPoint) (g : Placement) : Placement :=
  foldl (fun g p => mouseMoveEvent true p g) g positions.

(** ** Strings the model reads exactly *)

(** [str.isascii]: on such strings [lower] above is [str.lower], which
    for other characters follows the Unicode case tables. *)
Fixpoint isascii (s : string) : bool :=
  match s with
  | EmptyString => true
  | String c rest => (Ascii.nat_of_ascii c <? 128)%nat && isascii rest
  end.

(** Every name that can be read from the device list is ASCII. *)
Definition ascii_names (devices : DeviceList) : bool :=
  match devices with
  | None => true
  | Some devs =>
      forallb (fun d => match d with Some name => isascii name | None => true end) devs
  end.

(** Printable ASCII, the characters from the space to the tilde.
    [QTextCursor.insertText] stores such a text as it is; a carriage return
    or a Unicode paragraph separator would start a new block instead and
    read back as a line feed. *)
Fixpoint plain_text (s : string) : bool :=
  match s with
  | EmptyString => true
  | String c rest =>
      (32 <=? Ascii.nat_of_ascii c)%nat && (Ascii.nat_of_ascii c <=? 126)%nat
      && plain_text rest
  end.

(** ** The guarded stream section as a whole (lines 432-465) *)

(** What [load_config()] returns on line 435, as line 436 uses it: a JSON
    object, of which ['device_name'] is read (a string, or [None] when it
    is absent or null), or a JSON value of another type, which has no
    method [get].  [type_name] is the Python type of that value. *)
Inductive ConfigValue : Type :=
| ConfigObject (device_name : option string)
| ConfigOther (is_truthy : bool) (type_name : string).

(** What the [try] of lines 432-465 meets besides the stream itself. *)
Record Guarded : Type := mkGuarded {
  config_value : ConfigValue;
  (** the exception, if any, with which the [with] statement is left once
      the loop is over: raised by [app.exec_()] or on closing the stream *)
  leave_error : option string
}.

Definition STREAM_FAILED (e : string) : string := "[ERROR] Audio stream failed: " +:+ e.

(** The [AttributeError] of [cfg.get] on a value that is not a dict. *)
Definition NO_GET (type_name : string) : string :=
  "'" +:+ type_name +:+ "' object has no attribute 'get'".

(** [cfg.get('device_name')] on line 436, where [cfg] is a dict: the
    object read, or the empty dict that replaces a falsy value. *)
Definition read_device_name (cfg : ConfigValue) : option string :=
  match cfg with
  | ConfigObject n => n
  | ConfigOther _ _ => None
  end.

(** Lines 432-465.  [load_config() or {}] replaces a falsy value by the
    empty dict; on any other value that is not a dict [cfg.get] raises
    inside the [try].  The handler of lines 463-465 is the same for every
    exception: print and [sys.exit(1)]. *)
Definition stream_section (g : Guarded) (env : Env) (st : State) : Exit :=
  let st1 := print "[INIT] Starting audio stream..." st in
  match config_value g with
  | ConfigOther true type_name => Exited 1 (print (STREAM_FAILED (NO_GET type_name)) st1)
  | cfg =>
      let name := read_device_name cfg in
      let '(device_idx, st2) := select_device (with_config_device_name name env) st1 in
      match open_stream env device_idx with
      | Some e => Exited 1 (print (STREAM_FAILED e) st2)
      | None =>
          let st3 := event_loop (events env) true st2 in
          match leave_error g with
          | Some e => Exited 1 (print (STREAM_FAILED e) st3)
          | None => Returned st3
          end
      end
  end.

(** ** The module run as a script (lines 356-367, 423-425, 467-468)

    Qt keeps one pointer to the application object, which
    [QApplication.instance()] returns: constructing a [QApplication] sets it
    to the new object, destroying one clears it, and constructing a widget
    while it is clear ends the process with a fatal error. *)
Record QtApps : Type := mkQt {
  constructed : nat;
  instance : option nat
}.

Definition QApplication (qt : QtApps) : nat * QtApps :=
  (constructed qt, mkQt (S (constructed qt)) (Some (constructed qt))).

Definition QApplication_del (qt : QtApps) : QtApps := mkQt (constructed qt) None.

(** Binding the global [app] to a new object releases the object it was
    bound to; the script holds no other reference to it, so it is
    destroyed. *)
Definition rebind_app (old : option nat) (qt : QtApps) : QtApps :=
  match old with
  | Some _ => QApplication_del qt
  | None => qt
  end.

Definition NO_QAPPLICATION : string :=
  "QWidget: Must construct a QApplication before a QWidget".

(** How the process ends: aborted by Qt, or [main] ran to its end. *)
Inductive ProcessEnd : Type :=
| Fatal (msg : string) (st : State)
| Ran (x : Exit).

(** [main()] called from line 468, in a fresh interpreter: no application
    object exists yet. *)
Definition script (g : Guarded) (env : Env) : ProcessEnd :=
  let qt0 := mkQt 0 None in
  (* lines 360-367 *)
  let '(app, qt1) :=
    match instance qt0 with
    | None => let '(a, qt) := QApplication qt0 in (Some a, qt)
    | Some a => (Some a, qt0)
    end in
  (* lines 369-420 *)
  let st1 := load_engine env initial_state in
  (* line 423: the right-hand side first, then the assignment *)
  let '(_, qt2) := QApplication qt1 in
  let qt3 := rebind_app app qt2 in
  (* line 424 *)
  match instance qt3 with
  | None => Fatal NO_QAPPLICATION st1
  | Some _ => Ran (stream_section g env (set_window (Some CaptionWindow_init) st1))
  end.

(** ** Sample inputs used by the examples *)

Definition loud_block (i : Z) : Frame * option string := ([i; 0; - i], None).

Definition state_with (blocks : list Frame) (m : option Model) : State :=
  mkState (PyQueue.mk AUDIO_QUEUE_MAXSIZE blocks) m (Some CaptionWindow_init) [].

Definition quiet_engine : Engine := fun _ _ _ _ => SegEnd.
Definition fixed_engine (texts : list string) : Engine :=
  fun _ _ _ _ => segments_of texts.
Definition failing_engine (texts : list string) (e : string) : Engine :=
  fun _ _ _ _ => segments_then_raise texts e.

Definition tiny_on_cpu : Model := mkModel "tiny" cpu int8.

Definition sample_load (gpu_ok cpu_ok : bool) : string -> Device -> ComputeType -> LoadResult :=
  fun _ dev _ =>
    match dev with
    | cuda => if gpu_ok then Loaded else LoadFailed "CUDA driver not found"
    | cpu => if cpu_ok then Loaded else LoadFailed "out of memory"
    end.

Definition sample_env (gpu_ok cpu_ok : bool) (stream_error : option string)
  (evs : list LoopEvent) : Env :=
  mkEnv (Imported "1.0.3") (Some "models/whisper/base") AnswerNo
        (sample_load gpu_ok cpu_ok) None
        (Some [Some "Microphone"; Some "CABLE Output (VB-Audio Virtual Cable)"])
        (fun _ => stream_error) evs.

(** Blocks too faint for the gate of [process_audio], loud enough for the
    test in [audio_callback]. *)
Definition faint_blocks (n : Z) : list Frame := map (fun i => [i]) (seqZ 1 n).

(** * Properties *)

(** ** Constants *)

Example MAX_QUEUE_SIZE_value : MAX_QUEUE_SIZE = 10.
Proof. reflexivity. Qed.

Example AUDIO_QUEUE_MAXSIZE_value : AUDIO_QUEUE_MAXSIZE = 20.
Proof. reflexivity. Qed.

(** ** Comparisons on rationals *)

Lemma Qltb_lt (x y : Q) : Qltb x y = true <-> (x < y)%Q.
Proof.
  unfold Qltb. rewrite negb_true_iff. split.
  - intros H. apply Qnot_le_lt. intros Hle.
    apply Qle_bool_iff in Hle. congruence.
  - intros H. destruct (Qle_bool y x) eqn:E; [ | reflexivity ].
    apply Qle_bool_iff in E. exfalso. exact (Qlt_not_le _ _ H E).
Qed.

Lemma Qltb_ge (x y : Q) : Qltb x y = false <-> (y <= x)%Q.
Proof.
  unfold Qltb. rewrite negb_false_iff. apply Qle_bool_iff.
Qed.

(** ** [lastn] *)

Section Lastn.
Context {A : Type}.
Implicit Types l : list A.

Lemma lastn_all n l : (length l <= n)%nat -> lastn n l = l.
Proof.
    intros H. unfold lastn.
    replace (length l - n)%nat with 0%nat by lia. reflexivity.
Qed.

Lemma length_lastn n l : length (lastn n l) = Nat.min n (length l).
Proof. unfold lastn. rewrite length_drop. lia. Qed.

Lemma lastn_app_r n l1 l2 : (n <= length l2)%nat -> lastn n (l1 ++ l2) = lastn n l2.
Proof.
    intros H. unfold lastn. rewrite length_app.
    replace (length l1 + length l2 - n)%nat
      with (length l1 + (length l2 - n))%nat by lia.
    apply drop_app_add.
Qed.

Lemma lastn_snoc n l x :
    (0 < n)%nat -> lastn n (lastn n l ++ [x]) = lastn n (l ++ [x]).
Proof.
    intros Hn. destruct (decide (length l <= n)%nat) as [Hle | Hgt].
    - by rewrite (lastn_all n l).
    - unfold lastn at 1 3. rewrite !length_app, length_lastn. simpl.
      replace (Nat.min n (length l) + 1 - n)%nat with 1%nat by lia.
      unfold lastn.
      replace (length l + 1 - n)%nat with (length l - n + 1)%nat by lia.
      rewrite <- drop_drop.
      rewrite (drop_app_le l [x] (length l - n)) by lia.
      reflexivity.
Qed.

Lemma lastn_lastn_app n l l' :
    (0 < n)%nat -> lastn n (lastn n l ++ l') = lastn n (l ++ l').
Proof.
    intros Hn. induction l' as [ | x l' IH] using rev_ind.
    - rewrite !app_nil_r. apply lastn_all. rewrite length_lastn. lia.
    - rewrite !app_assoc.
      rewrite <- (lastn_snoc n (lastn n l ++ l')) by done.
      rewrite IH. by apply lastn_snoc.
Qed.
End Lastn.

(** ** The queue under [push_drop_oldest] *)

Lemma qsize_nonneg {A} (q : PyQueue.Queue A) : 0 <= PyQueue.qsize q.
Proof. unfold PyQueue.qsize. lia. Qed.

Lemma push_drop_oldest_spec (x : Frame) (q : PyQueue.Queue Frame) :
  0 < PyQueue.maxsize q ->
  PyQueue.qsize q <= PyQueue.maxsize q ->
  PyQueue.maxsize (push_drop_oldest x q) = PyQueue.maxsize q /\
  PyQueue.items (push_drop_oldest x q)
    = lastn (Z.to_nat (PyQueue.maxsize q)) (PyQueue.items q ++ [x]).
Proof.
  destruct q as [c l]. unfold PyQueue.qsize. simpl. intros Hc Hsz.
  assert (H0 : (0 <? c) = true) by (apply Z.ltb_lt; lia).
  unfold push_drop_oldest, PyQueue.full, PyQueue.get_nowait, PyQueue.put_nowait,
    PyQueue.qsize.
  cbn [PyQueue.maxsize PyQueue.items]. rewrite H0. cbn [andb].
  destruct (Z.leb_spec c (Z.of_nat (length l))) as [Hfull | Hfree].
  - destruct l as [ | y l']; [ simpl in *; lia | ].
    cbn [PyQueue.maxsize PyQueue.items]. rewrite H0. cbn [andb].
    destruct (Z.leb_spec c (Z.of_nat (length l'))) as [Hfull' | _];
      [ simpl in *; lia | ].
    split; [ reflexivity | ]. cbn [PyQueue.items].
    unfold lastn. rewrite length_app. simpl in *.
    replace (S (length l' + 1) - Z.to_nat c)%nat with 1%nat by lia.
    reflexivity.
  - cbn [PyQueue.maxsize PyQueue.items]. rewrite ?H0. cbn [andb].
    destruct (Z.leb_spec c (Z.of_nat (length l))) as [Hfull | _]; [ lia | ].
    split; [ reflexivity | ]. cbn [PyQueue.items].
    rewrite lastn_all; [ reflexivity | ]. rewrite length_app. simpl. lia.
Qed.

Lemma push_drop_oldest_ok (x : Frame) (q : PyQueue.Queue Frame) :
  queue_ok q -> queue_ok (push_drop_oldest x q).
Proof.
  intros [Hm Hs].
  destruct (push_drop_oldest_spec x q) as [Hm' Hi].
  - rewrite Hm. reflexivity.
  - rewrite Hm. exact Hs.
  - split; [ congruence | ].
    unfold PyQueue.qsize. rewrite Hi, length_lastn, Hm.
    change AUDIO_QUEUE_MAXSIZE with 20. lia.
Qed.

Lemma full_length (q : PyQueue.Queue Frame) :
  queue_ok q -> PyQueue.full q = true ->
  length (PyQueue.items q) = Z.to_nat AUDIO_QUEUE_MAXSIZE.
Proof.
  intros [Hm Hs] Hfull. unfold PyQueue.full in Hfull.
  apply andb_prop in Hfull as [_ Hle]. apply Z.leb_le in Hle.
  rewrite Hm in Hle. unfold PyQueue.qsize in *. lia.
Qed.

Lemma push_drop_oldest_full (x : Frame) (q : PyQueue.Queue Frame) :
  queue_ok q -> PyQueue.full q = true ->
  exists oldest rest,
    PyQueue.items q = oldest :: rest /\
    PyQueue.items (push_drop_oldest x q) = rest ++ [x].
Proof.
  intros Hok Hfull. pose proof (full_length q Hok Hfull) as Hlen.
  destruct Hok as [Hm Hs].
  destruct (push_drop_oldest_spec x q) as [_ Hi]; [ by rewrite Hm | by rewrite Hm | ].
  rewrite Hm in Hi. rewrite Hi.
  destruct (PyQueue.items q) as [ | y l'] eqn:E.
  - change AUDIO_QUEUE_MAXSIZE with 20 in Hlen. discriminate.
  - exists y, l'. split; [ reflexivity | ].
    unfold lastn. rewrite length_app, Hlen. simpl.
    replace (Z.to_nat AUDIO_QUEUE_MAXSIZE + 1 - Z.to_nat AUDIO_QUEUE_MAXSIZE)%nat
      with 1%nat by lia.
    reflexivity.
Qed.

(** ** [audio_callback] *)

Lemma max_amp_nonempty (f : Frame) : f <> [] -> exists a, max_amp f = Some a.
Proof.
  destruct f as [ | s f']; [ congruence | ]. intros _.
  unfold max_amp. simpl. eauto.
Qed.

Lemma audio_q_print line st : audio_q (print line st) = audio_q st.
Proof. reflexivity. Qed.

(** On a non-empty block the callback returns normally; the queue is
    changed by [push_drop_oldest] exactly when the block passes the test of
    line 50, and is left alone otherwise. *)
Lemma audio_callback_queue (f : Frame) (s : option string) (st : State) :
  f <> [] ->
  exists st',
    audio_callback f s st = Continue st' /\
    model st' = model st /\ window st' = window st /\
    audio_q st' = if admitted f then push_drop_oldest f (audio_q st) else audio_q st.
Proof.
  intros Hf. destruct (max_amp_nonempty f Hf) as [a Ha].
  unfold audio_callback, admitted. rewrite Ha.
  destruct (Qltb (1 # 100) a); destruct s; eexists; (split; [ reflexivity | ]);
    simpl; auto.
Qed.

Lemma callbacks_queue (ds : list (Frame * option string)) :
  forall st,
    queue_ok (audio_q st) ->
    Forall (fun d => fst d <> []) ds ->
    exists st',
      callbacks ds st = Continue st' /\
      model st' = model st /\ window st' = window st /\
      queue_ok (audio_q st') /\
      PyQueue.items (audio_q st')
        = lastn (Z.to_nat AUDIO_QUEUE_MAXSIZE)
                (PyQueue.items (audio_q st) ++ filter admitted (map fst ds)).
Proof.
  induction ds as [ | [f s] ds IH]; intros st Hok Hne.
  - exists st. simpl. rewrite app_nil_r.
    repeat split; try apply Hok.
    rewrite lastn_all; [ reflexivity | ].
    destruct Hok as [_ Hs]. unfold PyQueue.qsize in Hs. lia.
  - inversion Hne as [ | ? ? Hf Hne' ]; subst. simpl in Hf.
    destruct (audio_callback_queue f s st Hf) as (st1 & Hcb & Hm1 & Hw1 & Hq1).
    assert (Hok1 : queue_ok (audio_q st1)).
    { rewrite Hq1. destruct (admitted f); [ by apply push_drop_oldest_ok | done ]. }
    destruct (IH st1 Hok1 Hne') as (st' & Hrun & Hm & Hw & Hok' & Hitems).
    exists st'. simpl. rewrite Hcb.
    repeat split; try congruence; try apply Hok'.
    rewrite Hitems, Hq1. simpl.
    destruct (admitted f) eqn:Hadm.
    + rewrite filter_cons_True by (by rewrite Hadm).
      destruct Hok as [Hmax Hsz].
      destruct (push_drop_oldest_spec f (audio_q st)) as [_ Hi]; [ by rewrite Hmax | by rewrite Hmax | ].
      rewrite Hi, Hmax.
      rewrite lastn_lastn_app
        by (change AUDIO_QUEUE_MAXSIZE with 20; lia).
      by rewrite <- app_assoc.
    + rewrite filter_cons_False; [ reflexivity | ]. rewrite Hadm. exact id.
Qed.

(** The test of line 50 on integers: [float(m) > 0.01] is [m >= 1]. *)
Lemma amplitude_test (m : Z) : Qltb (1 # 100) (inject_Z m) = true <-> 1 <= m.
Proof. rewrite Qltb_lt. unfold Qlt, inject_Z. simpl. lia. Qed.

Lemma wrap16_abs (s : Z) :
  is_int16 s ->
  wrap16 (Z.abs s) = if s =? int16_min then int16_min else Z.abs s.
Proof.
  unfold is_int16, int16_min, int16_max, wrap16. intros Hs.
  destruct (Z.eqb_spec s (-32768)) as [-> | Hne]; [ reflexivity | ].
  rewrite Z.mod_small by lia. lia.
Qed.

Lemma fold_max_reaches (l : list Z) :
  forall x, 1 <= fold_left Z.max l x <-> 1 <= x \/ Exists (fun y => 1 <= y) l.
Proof.
  induction l as [ | y l IH]; intros x; simpl.
  - rewrite Exists_nil. tauto.
  - rewrite IH, Exists_cons, Z.max_le_iff. tauto.
Qed.

(** Which blocks pass the test of line 50: those with a sample that is
    neither zero nor [-32768] (whose absolute value wraps to a negative
    number). *)
Lemma admitted_iff (f : Frame) :
  Forall is_int16 f ->
  admitted f = true <-> Exists (fun s => s <> 0 /\ s <> int16_min) f.
Proof.
  intros Hint. unfold admitted, max_amp.
  destruct f as [ | s f']; simpl.
  - rewrite Exists_nil. split; [ discriminate | tauto ].
  - rewrite amplitude_test, fold_max_reaches.
    inversion Hint as [ | ? ? Hs Hf']; subst.
    unfold np_abs_int16. rewrite Exists_cons, Exists_map.
    assert (Hone : forall z, is_int16 z ->
              1 <= wrap16 (Z.abs z) <-> z <> 0 /\ z <> int16_min).
    { intros z Hz. rewrite wrap16_abs by done.
      unfold int16_min. destruct (Z.eqb_spec z (-32768)); lia. }
    rewrite (Hone s Hs).
    assert (Hrest : Exists (fun y => 1 <= wrap16 (Z.abs y)) f'
                    <-> Exists (fun y => y <> 0 /\ y <> int16_min) f').
    { rewrite !Exists_exists. split; intros (y & Hy & H); exists y;
        (split; [ done | ]); rewrite Forall_forall in Hf';
        by apply (Hone y (Hf' y Hy)). }
    rewrite Hrest. tauto.
Qed.

(** A block that fails the test of line 50 leaves the whole state as it
    was, apart from the status warning. *)
Lemma audio_callback_rejected (f : Frame) (st : State) :
  f <> [] -> admitted f = false -> audio_callback f None st = Continue st.
Proof.
  intros Hf Hadm. destruct (max_amp_nonempty f Hf) as [a Ha].
  unfold audio_callback, admitted in *. rewrite Ha in *. by rewrite Hadm.
Qed.

Example full_scale_negative_block_rejected :
  admitted (replicate 4 (-32768)) = false.
Proof. reflexivity. Qed.

Example quiet_block_admitted : admitted [0; 0; 1; 0] = true.
Proof. reflexivity. Qed.

(** C1 (as the code behaves): the peak amplitude computed on line 49
    decides whether the block is queued.  A block of [BLOCKSIZE] zero
    samples delivered to the freshly created queue is not forwarded to the
    push: the callback returns with the state unchanged and the queue still
    empty, although the push of lines 52-61 applied to that block and that
    queue would have stored it. *)
Theorem audio_callback_withholds_silent_block :
  let silent := replicate (Z.to_nat BLOCKSIZE) 0 in
  audio_callback silent None initial_state = Continue initial_state /\
  PyQueue.items (audio_q initial_state) = [] /\
  PyQueue.items (push_drop_oldest silent (audio_q initial_state)) = [silent].
Proof. vm_compute. repeat split. Qed.

(** ** The drain of a tick *)

Lemma drain_loop_spec (n : nat) :
  forall chunks (q : PyQueue.Queue Frame),
    drain_loop n chunks q
    = (chunks ++ take n (PyQueue.items q),
       PyQueue.mk (PyQueue.maxsize q) (drop n (PyQueue.items q))).
Proof.
  induction n as [ | n IH]; intros chunks [c l]; simpl.
  - by rewrite app_nil_r, drop_0.
  - unfold PyQueue.get_nowait. simpl. destruct l as [ | x l']; simpl.
    + by rewrite app_nil_r.
    + rewrite IH. simpl. by rewrite <- app_assoc.
Qed.

Lemma drain_up_to_spec (n : nat) (q : PyQueue.Queue Frame) :
  drain_up_to n q
  = (take n (PyQueue.items q),
     PyQueue.mk (PyQueue.maxsize q) (drop n (PyQueue.items q))).
Proof. unfold drain_up_to. by rewrite drain_loop_spec. Qed.

Lemma empty_iff {A} (q : PyQueue.Queue A) :
  PyQueue.empty q = true <-> PyQueue.items q = [].
Proof.
  unfold PyQueue.empty, PyQueue.qsize. rewrite Z.eqb_eq.
  destruct (PyQueue.items q); simpl; split; intros H; try done; lia.
Qed.

(** [process_audio] by cases, with the drain already resolved. *)
Lemma process_audio_unfold (engine : Engine) (st : State) :
  process_audio engine st =
  match PyQueue.items (audio_q st) with
  | [] => st
  | _ :: _ =>
      let st1 := set_audio_q (drained_queue (audio_q st)) st in
      let audio := batch_of (audio_q st) in
      if is_silent audio then st1
      else
        match model st with
        | None => print NOT_LOADED_MSG st1
        | Some m =>
            consume (engine m audio true "en")
                    (emit (EngineTranscribe m audio true "en") st1)
        end
  end.
Proof.
  unfold process_audio, batch_of.
  destruct (PyQueue.items (audio_q st)) as [ | x l] eqn:El.
  - apply empty_iff in El. by rewrite El.
  - destruct (PyQueue.empty (audio_q st)) eqn:Ee.
    { apply empty_iff in Ee. congruence. }
    rewrite drain_up_to_spec, El. unfold drained_queue. rewrite El.
    change (Z.to_nat MAX_QUEUE_SIZE) with 10%nat. reflexivity.
Qed.

(** C3: for every queue and every bound [n], the drain returns the first
    [min n size] blocks in queue order, never more than [n] and never more
    than the queue holds; what it returns followed by what it leaves is the
    old content, so the size drops by exactly the number returned.  The
    drain is a total function built from [get_nowait] alone: it cannot
    wait.  On an empty queue it returns nothing and leaves the queue as it
    is, and a tick that finds the queue empty changes nothing at all. *)
Theorem drain_up_to_fifo (n : nat) (q : PyQueue.Queue Frame) :
  let chunks := fst (drain_up_to n q) in
  let q' := snd (drain_up_to n q) in
  chunks = take n (PyQueue.items q) /\
  length chunks = Nat.min n (length (PyQueue.items q)) /\
  PyQueue.items q = chunks ++ PyQueue.items q' /\
  PyQueue.qsize q' = PyQueue.qsize q - Z.of_nat (length chunks) /\
  PyQueue.maxsize q' = PyQueue.maxsize q /\
  drain_up_to n (PyQueue.mk (PyQueue.maxsize q) [])
    = ([], PyQueue.mk (PyQueue.maxsize q) []) /\
  (forall engine m w t,
      let st := mkState (PyQueue.mk (PyQueue.maxsize q) []) m w t in
      process_audio engine st = st).
Proof.
  rewrite drain_up_to_spec. simpl. repeat split.
  - apply length_take.
  - symmetry. apply take_drop.
  - unfold PyQueue.qsize. simpl. rewrite length_drop, length_take. lia.
  - by rewrite drain_up_to_spec; destruct n.
Qed.

Example drain_three_of_five :
  drain_up_to 3 (PyQueue.mk 20 [[1]; [2]; [3]; [4]; [5]])
  = ([[1]; [2]; [3]], PyQueue.mk 20 [[4]; [5]]).
Proof. reflexivity. Qed.

Example drain_more_than_held :
  drain_up_to 7 (PyQueue.mk 20 [[1]; [2]]) = ([[1]; [2]], PyQueue.mk 20 []).
Proof. reflexivity. Qed.

(** ** The peak of a batch *)

Lemma qmax_l (x y : Q) : (x <= qmax x y)%Q.
Proof.
  unfold qmax. destruct (Qle_bool x y) eqn:E.
  - by apply Qle_bool_iff.
  - apply Qle_refl.
Qed.

Lemma qmax_r (x y : Q) : (y <= qmax x y)%Q.
Proof.
  unfold qmax. destruct (Qle_bool x y) eqn:E.
  - apply Qle_refl.
  - apply Qlt_le_weak, Qnot_le_lt. intros H. apply Qle_bool_iff in H. congruence.
Qed.

Lemma qmax_lub (x y b : Q) : (x <= b)%Q -> (y <= b)%Q -> (qmax x y <= b)%Q.
Proof. unfold qmax. by destruct (Qle_bool x y). Qed.

Lemma fold_qmax_lower (l : list Q) :
  forall acc,
    (acc <= fold_left qmax l acc)%Q /\
    Forall (fun x => (x <= fold_left qmax l acc)%Q) l.
Proof.
  induction l as [ | x l IH]; intros acc; simpl.
  - split; [ apply Qle_refl | constructor ].
  - destruct (IH (qmax acc x)) as [Hacc Hall]. split.
    + eapply Qle_trans; [ apply qmax_l | exact Hacc ].
    + constructor; [ | exact Hall ].
      eapply Qle_trans; [ apply qmax_r | exact Hacc ].
Qed.

Lemma fold_qmax_upper (b : Q) (l : list Q) :
  forall acc,
    (acc <= b)%Q -> Forall (fun x => (x <= b)%Q) l -> (fold_left qmax l acc <= b)%Q.
Proof.
  induction l as [ | x l IH]; intros acc Hacc Hall; simpl; [ done | ].
  inversion Hall; subst. apply IH; [ by apply qmax_lub | done ].
Qed.

Lemma peak_of_nonneg (audio : list Q) : (0 <= peak_of audio)%Q.
Proof.
  destruct audio as [ | x l]; simpl; [ apply Qle_refl | ].
  eapply Qle_trans; [ apply Qabs_nonneg | apply fold_qmax_lower ].
Qed.

Lemma peak_of_lower (audio : list Q) (x : Q) :
  In x audio -> (Qabs x <= peak_of audio)%Q.
Proof.
  destruct audio as [ | y l]; simpl; [ done | ].
  destruct (fold_qmax_lower (map Qabs l) (Qabs y)) as [Hacc Hall].
  intros [-> | Hin]; [ exact Hacc | ].
  rewrite Forall_forall in Hall. apply Hall.
  apply list_elem_of_In, in_map, Hin.
Qed.

Lemma peak_of_upper (audio : list Q) (b : Q) :
  (0 <= b)%Q -> Forall (fun x => (Qabs x <= b)%Q) audio -> (peak_of audio <= b)%Q.
Proof.
  destruct audio as [ | y l]; simpl; [ done | ]. intros _ Hall.
  inversion Hall; subst.
  apply fold_qmax_upper; [ done | ].
  by apply Forall_map.
Qed.

(** ** Normalisation *)

(** Integers below [2^24] in magnitude are float32 values. *)
Lemma f32_of_Z_exact (z : Z) : Z.abs z < 2 ^ 24 -> f32_of_Z z = inject_Z z.
Proof.
  intros H. unfold f32_of_Z.
  assert (Hlog : Z.log2 (Z.abs z) - 23 <= 0).
  { destruct (Z.eq_dec (Z.abs z) 0) as [-> | Hnz]; [ simpl; lia | ].
    assert (Z.log2 (Z.abs z) < 24); [ | lia ].
    apply Z.log2_lt_pow2; lia. }
  destruct (Z.leb_spec (Z.log2 (Z.abs z) - 23) 0); [ reflexivity | lia ].
Qed.

Example f32_of_Z_rounds : f32_of_Z 16777217 = inject_Z 16777216.
Proof. reflexivity. Qed.

Example f32_of_Z_ties_to_even : f32_of_Z 16777219 = inject_Z 16777220.
Proof. reflexivity. Qed.

Lemma normalize_int16 (a : list Z) :
  Forall is_int16 a ->
  normalize (IntArray np_int16 a) = map (fun s => (inject_Z s / 32768)%Q) a.
Proof.
  intros H. simpl. apply map_ext_in. intros s Hs.
  rewrite Forall_forall in H. apply list_elem_of_In, H in Hs.
  rewrite f32_of_Z_exact; [ reflexivity | ].
  unfold is_int16, int16_min, int16_max in Hs. lia.
Qed.

Lemma Qabs_scaled_int16 (s : Z) :
  Qabs (inject_Z s / 32768) = (Z.abs s # 32768)%Q.
Proof.
  unfold Qdiv, Qmult, Qinv, inject_Z, Qabs. simpl.
  by rewrite Z.mul_1_r.
Qed.

Lemma scaled_int16_range (s : Z) :
  is_int16 s -> (-1 <= inject_Z s / 32768 <= 1)%Q.
Proof.
  unfold is_int16, int16_min, int16_max. intros H.
  unfold Qle, Qdiv, Qmult, Qinv, inject_Z. simpl. lia.
Qed.

(** The silence gate on int16 data does not depend on how [0.001] is
    rounded: the closest float32 and the closest float64 to [0.001] give
    the same decision as the exact threshold. *)
Lemma gate_threshold_rounding (k : Z) :
  0 <= k <= 32768 ->
  let peak := (k # 32768)%Q in
  ((peak < SILENCE_THRESHOLD)%Q <-> k <= 32) /\
  ((peak < 8589935 # 8589934592)%Q <-> k <= 32) /\
  ((peak < 4611686018427388 # 4611686018427387904)%Q <-> k <= 32).
Proof.
  intros Hk peak. subst peak. unfold SILENCE_THRESHOLD, Qlt. simpl. lia.
Qed.

(** A silent batch ends the tick right after the drain. *)
Lemma process_audio_silent (engine : Engine) (st : State) :
  is_silent (batch_of (audio_q st)) = true ->
  trace (process_audio engine st) = trace st /\
  model (process_audio engine st) = model st /\
  window (process_audio engine st) = window st /\
  PyQueue.items (audio_q (process_audio engine st))
    = drop (Z.to_nat MAX_QUEUE_SIZE) (PyQueue.items (audio_q st)).
Proof.
  intros Hs. rewrite process_audio_unfold.
  destruct (PyQueue.items (audio_q st)) as [ | x l] eqn:El.
  - rewrite El. auto.
  - simpl. rewrite Hs. simpl. rewrite El. auto.
Qed.

(** C4: the batch a tick drains consists of int16 samples (the format the
    stream is opened with); normalisation divides each of them by [32768],
    which lands in [[-1, 1]].  An array that is already float32 is returned
    as it is; the branch for any other integer format, which no drained
    batch takes, only casts to float32.  When all samples of the drained
    batch are zero the peak is [0] and the tick stops at the silence gate
    without calling the engine; when some sample is at full scale the peak
    is at least [32767/32768], at most [1], and the batch passes the
    gate. *)
Theorem normalization_of_drained_batch (engine : Engine) (st : State) :
  let samples :=
    concat (fst (drain_up_to (Z.to_nat MAX_QUEUE_SIZE) (audio_q st))) in
  let audio := batch_of (audio_q st) in
  Forall is_int16 samples ->
  audio = map (fun s => (inject_Z s / 32768)%Q) samples /\
  Forall (fun x => (-1 <= x <= 1)%Q) audio /\
  (forall a, normalize (Float32Array a) = a) /\
  (forall dt a, dt <> np_int16 -> normalize (IntArray dt a) = map f32_of_Z a) /\
  (Forall (fun s => s = 0) samples ->
     (peak_of audio == 0)%Q /\
     is_silent audio = true /\
     trace (process_audio engine st) = trace st) /\
  (Exists (fun s => s = int16_min \/ s = int16_max) samples ->
     (32767 # 32768 <= peak_of audio <= 1)%Q /\
     is_silent audio = false).
Proof.
  intros samples audio Hint.
  assert (Haudio : audio = map (fun s => (inject_Z s / 32768)%Q) samples).
  { subst audio samples. unfold batch_of. by apply normalize_int16. }
  assert (Hrange : Forall (fun x => (-1 <= x <= 1)%Q) audio).
  { rewrite Haudio. apply Forall_map.
    eapply Forall_impl; [ exact Hint | ]. intros s Hs. by apply scaled_int16_range. }
  assert (Hupper : (peak_of audio <= 1)%Q).
  { apply peak_of_upper; [ done | ].
    eapply Forall_impl; [ exact Hrange | ]. intros x [Hlo Hhi].
    apply Qabs_Qle_condition. by split. }
  assert (Hzero : Forall (fun s => s = 0) samples -> (peak_of audio <= 0)%Q).
  { intros H. apply peak_of_upper; [ apply Qle_refl | ].
    rewrite Haudio. apply Forall_map.
    eapply Forall_impl; [ exact H | ]. intros s ->. done. }
  assert (Hsilent : Forall (fun s => s = 0) samples -> is_silent audio = true).
  { intros H. apply Qltb_lt. by eapply Qle_lt_trans with (y := 0%Q); [ apply Hzero | ]. }
  repeat split; try done.
  - by destruct dt.
  - (* all-zero batch *)
    apply Qle_antisym; [ by apply Hzero | apply peak_of_nonneg ].
  - by apply Hsilent.
  - apply process_audio_silent. by apply Hsilent.
  - (* full-scale batch *)
    apply Exists_exists in H as (s & Hin & Hs).
    eapply Qle_trans; [ | apply (peak_of_lower audio (inject_Z s / 32768)) ].
    + rewrite Qabs_scaled_int16. unfold int16_min, int16_max in Hs.
      destruct Hs as [-> | ->]; done.
    + rewrite Haudio.
      apply (in_map (fun s => (inject_Z s / 32768)%Q)). by apply list_elem_of_In.
  - apply Exists_exists in H as (s & Hin & Hs).
    apply Qltb_ge. unfold SILENCE_THRESHOLD.
    eapply Qle_trans; [ | apply (peak_of_lower audio (inject_Z s / 32768)) ].
    + rewrite Qabs_scaled_int16. unfold int16_min, int16_max in Hs.
      destruct Hs as [-> | ->]; done.
    + rewrite Haudio.
      apply (in_map (fun s => (inject_Z s / 32768)%Q)). by apply list_elem_of_In.
Qed.

Lemma normalization_of_drained_batch_witness :
  batch_of (audio_q (state_with [[16384; -32768]; [0]] None))
    = [(16384 # 32768)%Q; (-32768 # 32768)%Q; (0 # 32768)%Q] /\
  is_silent (batch_of (audio_q (state_with [[16384; -32768]; [0]] None))) = false.
Proof.
  destruct (normalization_of_drained_batch quiet_engine
              (state_with [[16384; -32768]; [0]] None))
    as (Heq & _ & _ & _ & _ & Hfull).
  - simpl. repeat constructor; unfold int16_min, int16_max; lia.
  - split; [ rewrite Heq; reflexivity | ].
    apply Hfull. simpl. right. left. by left.
Defined.

(** ** Traces *)

Lemma transcribe_calls_app (t1 t2 : list Event) :
  transcribe_calls (t1 ++ t2) = (transcribe_calls t1 + transcribe_calls t2)%nat.
Proof. unfold transcribe_calls. by rewrite filter_app, length_app. Qed.

Lemma transcribe_calls_prints (lines : list string) :
  transcribe_calls (map Print lines) = 0%nat.
Proof. induction lines; [ done | ]. exact IHlines. Qed.

Lemma consume_spec (segments : SegStream) :
  forall st,
    audio_q (consume segments st) = audio_q st /\
    model (consume segments st) = model st /\
    window (consume segments st)
      = option_map (show_all (stream_texts segments)) (window st) /\
    trace (consume segments st)
      = trace st ++ map Print (consume_lines (has_window st) segments).
Proof.
  induction segments as [ | text rest IH | e]; intros st.
  - simpl. rewrite app_nil_r. by destruct (window st).
  - simpl. destruct (IH (forward_segment text st)) as (Hq & Hm & Hw & Ht).
    rewrite Hq, Hm, Hw, Ht. unfold forward_segment, has_window.
    destruct (window st) as [w | ] eqn:Ew; simpl; rewrite ?Ew, <- ?app_assoc;
      repeat split; reflexivity.
  - simpl. by destruct (window st).
Qed.

(** C5: on a tick that drains a batch, nothing is attempted when the peak
    is below [0.001]: the trace, the model and the window are left as they
    were.  When the peak is at or above [0.001] the batch reaches the
    engine stage: with a loaded engine [transcribe] is called once on the
    batch, without one the missing-model diagnostic is printed.  So with a
    loaded engine a call to [transcribe] is made if and only if the peak is
    at or above the threshold, and in no case is a call made below it. *)
Theorem silence_gate_decides_transcription (engine : Engine) (st : State) :
  PyQueue.items (audio_q st) <> [] ->
  let audio := batch_of (audio_q st) in
  let st' := process_audio engine st in
  ((peak_of audio < SILENCE_THRESHOLD)%Q ->
     trace st' = trace st /\ model st' = model st /\ window st' = window st) /\
  ((SILENCE_THRESHOLD <= peak_of audio)%Q ->
     match model st with
     | Some m =>
         trace st' = trace st ++
           EngineTranscribe m audio true "en"
             :: map Print (consume_lines (has_window st) (engine m audio true "en"))
     | None => trace st' = trace st ++ [Print NOT_LOADED_MSG]
     end) /\
  (forall m, model st = Some m ->
     (transcribe_calls (trace st') = S (transcribe_calls (trace st))
      <-> (SILENCE_THRESHOLD <= peak_of audio)%Q)) /\
  (transcribe_calls (trace st') <> transcribe_calls (trace st) ->
     (SILENCE_THRESHOLD <= peak_of audio)%Q).
Proof.
  intros Hne audio st'.
  assert (Hlow : (peak_of audio < SILENCE_THRESHOLD)%Q ->
     trace st' = trace st /\ model st' = model st /\ window st' = window st).
  { intros Hlt. apply Qltb_lt in Hlt.
    destruct (process_audio_silent engine st Hlt) as (? & ? & ? & _). auto. }
  assert (Hhigh : (SILENCE_THRESHOLD <= peak_of audio)%Q ->
     match model st with
     | Some m =>
         trace st' = trace st ++
           EngineTranscribe m audio true "en"
             :: map Print (consume_lines (has_window st) (engine m audio true "en"))
     | None => trace st' = trace st ++ [Print NOT_LOADED_MSG]
     end).
  { intros Hge. apply Qltb_ge in Hge. subst st'. rewrite process_audio_unfold.
    destruct (PyQueue.items (audio_q st)) as [ | x l]; [ done | ].
    simpl. fold audio. unfold is_silent. rewrite Hge.
    destruct (model st) as [m | ]; [ | reflexivity ].
    destruct (consume_spec (engine m audio true "en")
                (emit (EngineTranscribe m audio true "en")
                   (set_audio_q (drained_queue (audio_q st)) st)))
      as (_ & _ & _ & Ht).
    rewrite Ht. simpl. by rewrite <- app_assoc. }
  assert (Hcount : forall m, model st = Some m ->
     (SILENCE_THRESHOLD <= peak_of audio)%Q ->
     transcribe_calls (trace st') = S (transcribe_calls (trace st))).
  { intros m Hm Hge. specialize (Hhigh Hge). rewrite Hm in Hhigh. rewrite Hhigh.
    rewrite transcribe_calls_app.
    change (transcribe_calls (EngineTranscribe m audio true "en" :: ?t))
      with (S (transcribe_calls t)).
    rewrite transcribe_calls_prints. lia. }
  split; [ exact Hlow | ]. split; [ exact Hhigh | ]. split.
  - intros m Hm. split; [ | by apply (Hcount m) ].
    intros Hcalls.
    destruct (Qlt_le_dec (peak_of audio) SILENCE_THRESHOLD) as [Hlt | Hge]; [ | done ].
    destruct (Hlow Hlt) as (Ht & _). rewrite Ht in Hcalls. lia.
  - intros Hcalls.
    destruct (Qlt_le_dec (peak_of audio) SILENCE_THRESHOLD) as [Hlt | Hge]; [ | done ].
    destruct (Hlow Hlt) as (Ht & _). by rewrite Ht in Hcalls.
Qed.

Lemma silence_gate_decides_transcription_witness :
  trace (process_audio (fixed_engine ["hi"]) (state_with [[33; 0]] (Some tiny_on_cpu)))
  = [EngineTranscribe tiny_on_cpu [(33 # 32768)%Q; (0 # 32768)%Q] true "en";
     Print "[TRANSCRIPTION] hi"].
Proof.
  destruct (silence_gate_decides_transcription (fixed_engine ["hi"])
              (state_with [[33; 0]] (Some tiny_on_cpu)))
    as (_ & Hhigh & _).
  - discriminate.
  - apply Hhigh. vm_compute. discriminate.
Defined.

Example gate_boundary_below :
  is_silent (batch_of (audio_q (state_with [[32; -7]] None))) = true.
Proof. reflexivity. Qed.

Example gate_boundary_above :
  is_silent (batch_of (audio_q (state_with [[-33; 7]] None))) = false.
Proof. reflexivity. Qed.

(** ** Ticks that reach the engine stage *)

Lemma process_audio_loud (engine : Engine) (st : State) :
  PyQueue.items (audio_q st) <> [] ->
  is_silent (batch_of (audio_q st)) = false ->
  process_audio engine st =
  let st1 := set_audio_q (drained_queue (audio_q st)) st in
  let audio := batch_of (audio_q st) in
  match model st with
  | None => print NOT_LOADED_MSG st1
  | Some m =>
      consume (engine m audio true "en")
              (emit (EngineTranscribe m audio true "en") st1)
  end.
Proof.
  intros Hne Hloud. rewrite process_audio_unfold.
  destruct (PyQueue.items (audio_q st)); [ done | ].
  simpl. by rewrite Hloud.
Qed.

(** No path through a tick assigns [model]. *)
Lemma process_audio_model (engine : Engine) (st : State) :
  model (process_audio engine st) = model st.
Proof.
  rewrite process_audio_unfold.
  destruct (PyQueue.items (audio_q st)); [ done | ]. simpl.
  destruct (is_silent _); [ done | ].
  destruct (model st) as [m | ] eqn:Em; [ | done ].
  destruct (consume_spec (engine m (batch_of (audio_q st)) true "en")
              (emit (EngineTranscribe m (batch_of (audio_q st)) true "en")
                 (set_audio_q (drained_queue (audio_q st)) st)))
    as (_ & Hm & _).
  rewrite Hm. simpl. exact Em.
Qed.

(** Every tick leaves the queue without the blocks it drained. *)
Lemma process_audio_queue (engine : Engine) (st : State) :
  audio_q (process_audio engine st) = drained_queue (audio_q st) \/
  (PyQueue.items (audio_q st) = [] /\ process_audio engine st = st).
Proof.
  rewrite process_audio_unfold.
  destruct (PyQueue.items (audio_q st)) as [ | x l] eqn:El; [ by right | left ].
  simpl. destruct (is_silent _); [ done | ].
  destruct (model st) as [m | ]; [ | done ].
  destruct (consume_spec (engine m (batch_of (audio_q st)) true "en")
            (emit (EngineTranscribe m (batch_of (audio_q st)) true "en")
               (set_audio_q (drained_queue (audio_q st)) st)))
    as (Hq & _).
  by rewrite Hq.
Qed.

Lemma process_audio_items (engine : Engine) (st : State) :
  PyQueue.items (audio_q (process_audio engine st))
    = drop (Z.to_nat MAX_QUEUE_SIZE) (PyQueue.items (audio_q st)) /\
  PyQueue.maxsize (audio_q (process_audio engine st)) = PyQueue.maxsize (audio_q st).
Proof.
  destruct (process_audio_queue engine st) as [-> | [Hnil ->]]; [ done | ].
  by rewrite Hnil.
Qed.

Lemma audio_callback_model (f : Frame) (s : option string) (st : State) :
  match audio_callback f s st with
  | Continue st' | Aborted st' => model st' = model st
  end.
Proof.
  unfold audio_callback. destruct (max_amp f) as [a | ]; [ | by destruct s ].
  destruct (Qltb (1 # 100) a); by destruct s.
Qed.

Lemma transcribe_calls_print (line : string) (st : State) :
  transcribe_calls (trace (print line st)) = transcribe_calls (trace st).
Proof.
  unfold print, emit. cbn [trace]. rewrite transcribe_calls_app.
  replace (transcribe_calls [Print line]) with 0%nat by reflexivity. lia.
Qed.

Lemma audio_callback_no_engine_event (f : Frame) (s : option string) (st : State) :
  match audio_callback f s st with
  | Continue st' | Aborted st' =>
      transcribe_calls (trace st') = transcribe_calls (trace st)
  end.
Proof.
  unfold audio_callback. destruct (max_amp f) as [a | ];
    [ destruct (Qltb (1 # 100) a) | ]; destruct s;
    cbn [trace set_audio_q]; rewrite ?transcribe_calls_print; reflexivity.
Qed.

Lemma event_loop_model (evs : list LoopEvent) :
  forall active st, model (event_loop evs active st) = model st.
Proof.
  induction evs as [ | [f s | engine] evs IH]; intros active st; simpl.
  - reflexivity.
  - destruct active; [ | apply IH ].
    pose proof (audio_callback_model f s st) as H.
    destruct (audio_callback f s st); rewrite IH; exact H.
  - rewrite IH. apply process_audio_model.
Qed.

(** ** Start-up *)

Lemma only_prints_refl (st : State) : only_prints st st.
Proof. exists []. destruct st. simpl. by rewrite app_nil_r. Qed.

Lemma only_prints_print (line : string) (st : State) : only_prints st (print line st).
Proof. by exists [line]. Qed.

Lemma only_prints_trans (st1 st2 st3 : State) :
  only_prints st1 st2 -> only_prints st2 st3 -> only_prints st1 st3.
Proof.
  intros [l1 ->] [l2 ->]. exists (l1 ++ l2). simpl.
  by rewrite map_app, app_assoc.
Qed.

Lemma list_devices_prints (devs : list (option string)) :
  forall idx st, only_prints st (list_devices idx devs st).
Proof.
  induction devs as [ | [name | ] devs IH]; intros idx st; simpl;
    try apply only_prints_refl.
  eapply only_prints_trans; [ apply only_prints_print | apply IH ].
Qed.

Lemma prefer_name_truthy (s : option string) :
  truthy (Some (or_default s DEVICE_NAME)) = true.
Proof. by destruct s as [[ | c r] | ]. Qed.

Lemma select_device_prints (env : Env) (st : State) :
  only_prints st (snd (select_device env st)).
Proof.
  unfold select_device. rewrite prefer_name_truthy.
  destruct (find_device_by_name (devices env) _) as [i | ]; simpl.
  - apply only_prints_print.
  - destruct (find_device_by_name (devices env) DEVICE_NAME) as [j | ]; simpl.
    + apply only_prints_print.
    + destruct (devices env) as [devs | ].
      * eapply only_prints_trans; [ apply only_prints_print | apply list_devices_prints ].
      * apply only_prints_print.
Qed.

Lemma select_device_index (env : Env) (st : State) :
  fst (select_device env st) = chosen_device env.
Proof.
  unfold chosen_device, select_device. rewrite prefer_name_truthy.
  destruct (find_device_by_name (devices env) _) as [i | ]; simpl; [ done | ].
  by destruct (find_device_by_name (devices env) DEVICE_NAME) as [j | ].
Qed.

Lemma main_unfold (env : Env) :
  main env =
  match open_stream env (chosen_device env) with
  | Some e => Exited 1 (print ("[ERROR] Audio stream failed: " +:+ e) (before_stream env))
  | None => Returned (event_loop (events env) true (before_stream env))
  end.
Proof.
  unfold main, before_stream.
  rewrite <- (select_device_index env
    (print "[INIT] Starting audio stream..."
       (set_window (Some CaptionWindow_init) (load_engine env initial_state)))).
  by destruct (select_device env _).
Qed.


Lemma transcribe_calls_load ref dev ct (st : State) :
  transcribe_calls (trace (emit (EngineLoad ref dev ct) st)) = transcribe_calls (trace st).
Proof.
  unfold emit. cbn [trace]. rewrite transcribe_calls_app.
  replace (transcribe_calls [EngineLoad ref dev ct]) with 0%nat by reflexivity. lia.
Qed.

Ltac quiet_trace :=
  repeat first
    [ progress cbn [trace audio_q window set_model set_window set_audio_q]
    | rewrite transcribe_calls_print
    | rewrite transcribe_calls_load ].

(** Loading the engine touches neither the queue nor the window and never
    calls [transcribe]. *)
Lemma load_engine_quiet (env : Env) (st : State) :
  audio_q (load_engine env st) = audio_q st /\
  window (load_engine env st) = window st /\
  transcribe_calls (trace (load_engine env st)) = transcribe_calls (trace st).
Proof.
  unfold load_engine, gpu_attempt, cpu_fallback, WhisperModel.
  destruct (faster_whisper env) as [v | ie];
    destruct (truthy (model_path env));
    try destruct (consent env);
    repeat match goal with
           | |- context [load env ?r ?d ?c] => destruct (load env r d c)
           end;
    repeat split; quiet_trace; reflexivity.
Qed.

Lemma before_stream_spec (env : Env) :
  audio_q (before_stream env) = PyQueue.new AUDIO_QUEUE_MAXSIZE /\
  model (before_stream env) = model (load_engine env initial_state) /\
  window (before_stream env) = Some CaptionWindow_init /\
  transcribe_calls (trace (before_stream env)) = 0%nat.
Proof.
  unfold before_stream.
  destruct (select_device_prints env
    (print "[INIT] Starting audio stream..."
       (set_window (Some CaptionWindow_init) (load_engine env initial_state))))
    as [lines ->].
  destruct (load_engine_quiet env initial_state) as (Hq & _ & Ht).
  repeat split; cbn [audio_q model window trace print emit set_window]; try done.
  rewrite !transcribe_calls_app, transcribe_calls_prints, Ht. reflexivity.
Qed.


(** Both attempts failing, on a sample environment. *)
Example both_loads_fail :
  let st := load_engine (sample_env false false None []) initial_state in
  load_attempts (trace st)
    = [EngineLoad "models/whisper/base" cuda float16; EngineLoad "tiny" cpu int8] /\
  model st = None /\
  last (trace st) = Some (Print "[ERROR] CPU model load failed: out of memory").
Proof. repeat split. Qed.

(** ** The guarded stream section and the start of the process *)

Lemma with_config_device_name_same (env : Env) :
  with_config_device_name (config_device_name env) env = env.
Proof. by destruct env. Qed.

(** [main] is the stream section entered after loading, with the window
    up, for an object configuration and a clean end of the loop. *)
Lemma main_is_stream_section (env : Env) :
  main env
  = stream_section (mkGuarded (ConfigObject (config_device_name env)) None) env
      (set_window (Some CaptionWindow_init) (load_engine env initial_state)).
Proof.
  unfold main, stream_section. cbn [config_value leave_error read_device_name].
  by rewrite with_config_device_name_same.
Qed.

Lemma stream_section_unfold (g : Guarded) (env : Env) (st : State) :
  (forall type_name, config_value g <> ConfigOther true type_name) ->
  let env' := with_config_device_name (read_device_name (config_value g)) env in
  let st2 := snd (select_device env' (print "[INIT] Starting audio stream..." st)) in
  stream_section g env st =
  match open_stream env (chosen_device env') with
  | Some e => Exited 1 (print (STREAM_FAILED e) st2)
  | None =>
      match leave_error g with
      | Some e => Exited 1 (print (STREAM_FAILED e) (event_loop (events env) true st2))
      | None => Returned (event_loop (events env) true st2)
      end
  end.
Proof.
  intros Hcfg env' st2. subst st2. unfold stream_section.
  rewrite <- (select_device_index env' (print "[INIT] Starting audio stream..." st)).
  subst env'. unfold read_device_name.
  destruct (config_value g) as [n | [ | ] ty]; [ | by destruct (Hcfg ty) | ];
    by destruct (select_device _ _).
Qed.

Lemma last_trace_print (line : string) (st : State) :
  last (trace (print line st)) = Some (Print line).
Proof. unfold print, emit. cbn [trace]. apply last_snoc. Qed.

(** C9 (the code at the failing inputs): a stream that cannot be opened is
    not the only thing that ends the process abnormally.  Started as a
    script, the process never gets as far as the stream: a first
    application object is constructed on line 363, line 423 constructs a
    second one and by rebinding [app] destroys the first, which clears Qt's
    application pointer, so the window constructor of line 424 ends the
    process with a fatal error, whatever the environment.  Past that
    point, the [try] of lines 432-465 guards more than the stream: a
    configuration file holding a JSON value that is not an object (the
    array [[1]], say) makes [cfg.get] raise on line 436, and the handler
    prints the audio-stream error and exits with status 1 although no
    device was looked up and no stream opened; an exception that leaves the
    [with] statement after the loop ends the same way.  What the claim says
    of the stream itself does hold of these lines: when no device can be
    opened the error is printed last, the exit status is 1, only stdout has
    changed, and nothing of what the loop would have done takes place. *)
Theorem stream_open_is_not_the_only_hard_failure
  (g : Guarded) (env : Env) (st : State) :
  script g env = Fatal NO_QAPPLICATION (load_engine env initial_state) /\
  (forall type_name,
     config_value g = ConfigOther true type_name ->
     stream_section g env st
     = Exited 1 (print (STREAM_FAILED (NO_GET type_name))
                   (print "[INIT] Starting audio stream..." st))) /\
  (forall e,
     (forall type_name, config_value g <> ConfigOther true type_name) ->
     (forall device_idx, open_stream env device_idx = None) ->
     leave_error g = Some e ->
     exists st',
       stream_section g env st = Exited 1 st' /\
       last (trace st') = Some (Print (STREAM_FAILED e))) /\
  (forall e,
     (forall type_name, config_value g <> ConfigOther true type_name) ->
     (forall device_idx, open_stream env device_idx = Some e) ->
     exists st',
       stream_section g env st = Exited 1 st' /\
       only_prints st st' /\
       last (trace st') = Some (Print (STREAM_FAILED e)) /\
       forall evs, stream_section g (with_events evs env) st = stream_section g env st).
Proof.
  split; [ reflexivity | ]. split; [ | split ].
  - intros ty Hcfg. unfold stream_section. by rewrite Hcfg.
  - intros e Hcfg Hopen Hleave.
    rewrite (stream_section_unfold g env st Hcfg). cbn zeta.
    rewrite Hopen, Hleave. eexists. split; [ reflexivity | apply last_trace_print ].
  - intros e Hcfg Hopen.
    rewrite (stream_section_unfold g env st Hcfg). cbn zeta. rewrite Hopen.
    eexists. split; [ reflexivity | ]. split; [ | split ].
    + eapply only_prints_trans; [ apply only_prints_print | ].
      eapply only_prints_trans; [ apply select_device_prints | apply only_prints_print ].
    + apply last_trace_print.
    + intros evs.
      rewrite (stream_section_unfold g (with_events evs env) st Hcfg). cbn zeta.
      change (open_stream (with_events evs env)) with (open_stream env).
      rewrite Hopen. reflexivity.
Qed.

Lemma stream_open_is_not_the_only_hard_failure_witness :
  stream_section (mkGuarded (ConfigOther true "list") None)
                 (sample_env true true None [Tick quiet_engine]) initial_state
  = Exited 1
      (mkState (PyQueue.new AUDIO_QUEUE_MAXSIZE) None None
         [Print "[INIT] Starting audio stream...";
          Print "[ERROR] Audio stream failed: 'list' object has no attribute 'get'"]) /\
  (exists st',
      stream_section (mkGuarded (ConfigObject None) (Some "Stream is stopped"))
                     (sample_env true true None [Tick quiet_engine]) initial_state
      = Exited 1 st' /\
      last (trace st') = Some (Print "[ERROR] Audio stream failed: Stream is stopped")) /\
  (exists st',
      stream_section (mkGuarded (ConfigObject None) None)
                     (sample_env true true (Some "Invalid device") [Tick quiet_engine])
                     initial_state
      = Exited 1 st' /\
      last (trace st') = Some (Print "[ERROR] Audio stream failed: Invalid device")).
Proof.
  destruct (stream_open_is_not_the_only_hard_failure
              (mkGuarded (ConfigOther true "list") None)
              (sample_env true true None [Tick quiet_engine]) initial_state)
    as (_ & Hcfg & _).
  destruct (stream_open_is_not_the_only_hard_failure
              (mkGuarded (ConfigObject None) (Some "Stream is stopped"))
              (sample_env true true None [Tick quiet_engine]) initial_state)
    as (_ & _ & Hleave & _).
  destruct (stream_open_is_not_the_only_hard_failure
              (mkGuarded (ConfigObject None) None)
              (sample_env true true (Some "Invalid device") [Tick quiet_engine])
              initial_state)
    as (_ & _ & _ & Hopen).
  split; [ | split ].
  - rewrite (Hcfg "list" eq_refl). reflexivity.
  - apply Hleave; [ discriminate | reflexivity | reflexivity ].
  - destruct (Hopen "Invalid device") as (st' & Hrun & _ & Hlast & _);
      [ discriminate | reflexivity | ].
    exists st'. split; [ exact Hrun | exact Hlast ].
Defined.

(** The script on a sample environment in which nothing is wrong with the
    audio device. *)
Example script_is_aborted_by_qt :
  script (mkGuarded (ConfigObject None) None) (sample_env true true None [Tick quiet_engine])
  = Fatal "QWidget: Must construct a QApplication before a QWidget"
      (load_engine (sample_env true true None [Tick quiet_engine]) initial_state).
Proof. reflexivity. Qed.

(** ** Ticks without an engine *)

Lemma process_audio_unloaded (engine : Engine) (st : State) :
  model st = None ->
  transcribe_calls (trace (process_audio engine st)) = transcribe_calls (trace st).
Proof.
  intros Hm. rewrite process_audio_unfold.
  destruct (PyQueue.items (audio_q st)); [ done | ]. simpl.
  destruct (is_silent _); [ done | ]. rewrite Hm.
  by rewrite transcribe_calls_print.
Qed.

Lemma event_loop_unloaded (evs : list LoopEvent) :
  forall active st,
    model st = None ->
    transcribe_calls (trace (event_loop evs active st)) = transcribe_calls (trace st).
Proof.
  induction evs as [ | [f s | engine] evs IH]; intros active st Hm; simpl.
  - reflexivity.
  - destruct active; [ | by apply IH ].
    pose proof (audio_callback_model f s st) as Hmodel.
    pose proof (audio_callback_no_engine_event f s st) as Hcalls.
    destruct (audio_callback f s st) as [st' | st']; rewrite IH; congruence.
  - rewrite IH.
    + by apply process_audio_unloaded.
    + by rewrite process_audio_model.
Qed.

(** C7: a tick that assembles a batch above the silence threshold while
    [model] is unset appends exactly one line to the trace, the
    missing-model diagnostic; it makes no call to [transcribe], leaves
    [model] and the window as they were, and returns, so the loop goes on
    with the events that follow, in none of which the engine is called. *)
Theorem tick_without_engine (engine : Engine) (st : State) :
  model st = None ->
  PyQueue.items (audio_q st) <> [] ->
  is_silent (batch_of (audio_q st)) = false ->
  let st' := process_audio engine st in
  trace st' = trace st ++ [Print NOT_LOADED_MSG] /\
  transcribe_calls (trace st') = transcribe_calls (trace st) /\
  model st' = None /\
  window st' = window st /\
  (forall evs active,
      event_loop (Tick engine :: evs) active st = event_loop evs active st' /\
      transcribe_calls (trace (event_loop evs active st'))
        = transcribe_calls (trace st)).
Proof.
  intros Hm Hne Hloud st'.
  assert (Hst' : st' = print NOT_LOADED_MSG (set_audio_q (drained_queue (audio_q st)) st)).
  { subst st'. rewrite process_audio_loud by done. simpl. by rewrite Hm. }
  assert (Hm' : model st' = None) by (by rewrite Hst').
  assert (Hcalls : transcribe_calls (trace st') = transcribe_calls (trace st)).
  { rewrite Hst'. by rewrite transcribe_calls_print. }
  repeat split.
  - by rewrite Hst'.
  - exact Hcalls.
  - exact Hm'.
  - by rewrite Hst'.
  - rewrite event_loop_unloaded by done. exact Hcalls.
Qed.

Lemma tick_without_engine_witness :
  trace (process_audio quiet_engine (state_with [[1200; -800]] None))
  = [Print NOT_LOADED_MSG].
Proof.
  destruct (tick_without_engine quiet_engine (state_with [[1200; -800]] None))
    as (Ht & _); [ reflexivity | discriminate | reflexivity | exact Ht ].
Defined.

(** ** Ticks on which the engine raises *)

Lemma callbacks_model (ds : list (Frame * option string)) :
  forall st st', callbacks ds st = Continue st' -> model st' = model st.
Proof.
  induction ds as [ | [f s] ds IH]; intros st st' H; simpl in H.
  - by inversion H.
  - pose proof (audio_callback_model f s st) as Hm.
    destruct (audio_callback f s st) as [st1 | st1]; [ | discriminate ].
    rewrite (IH _ _ H). exact Hm.
Qed.

Lemma stream_texts_segments_of (texts : list string) :
  stream_texts (segments_of texts) = texts.
Proof. induction texts as [ | t texts IH]; simpl; congruence. Qed.

Lemma stream_texts_then_raise (texts : list string) (e : string) :
  stream_texts (segments_then_raise texts e) = texts.
Proof. induction texts as [ | t texts IH]; simpl; congruence. Qed.

Lemma consume_lines_then_raise (b : bool) (texts : list string) (e : string) :
  exists before,
    consume_lines b (segments_then_raise texts e)
    = before ++ ["[ERROR] Transcription failed: " +:+ e].
Proof.
  induction texts as [ | t texts [before IH]].
  - by exists [].
  - exists ((if b then [] else [t]) ++ ("[TRANSCRIPTION] " +:+ t) :: before).
    change (segments_then_raise (t :: texts) e)
      with (SegNext t (segments_then_raise texts e)).
    cbn [consume_lines]. rewrite IH. by rewrite <- app_assoc.
Qed.

Lemma process_audio_engine (engine : Engine) (st : State) (m : Model) :
  model st = Some m ->
  PyQueue.items (audio_q st) <> [] ->
  is_silent (batch_of (audio_q st)) = false ->
  let audio := batch_of (audio_q st) in
  let out := engine m audio true "en" in
  audio_q (process_audio engine st) = drained_queue (audio_q st) /\
  model (process_audio engine st) = Some m /\
  window (process_audio engine st) = option_map (show_all (stream_texts out)) (window st) /\
  trace (process_audio engine st)
    = trace st ++ EngineTranscribe m audio true "en"
        :: map Print (consume_lines (has_window st) out).
Proof.
  intros Hm Hne Hloud audio out.
  rewrite process_audio_loud by done. simpl. rewrite Hm.
  destruct (consume_spec (engine m (batch_of (audio_q st)) true "en")
              (emit (EngineTranscribe m (batch_of (audio_q st)) true "en")
                 (set_audio_q (drained_queue (audio_q st)) st)))
    as (Hq & Hmod & Hw & Ht).
  rewrite Hq, Hmod, Hw, Ht. simpl. rewrite <- app_assoc. auto.
Qed.

(** C6: when [transcribe] raises on a tick, at the call or after some
    segments, the exception does not leave the tick: the segments yielded
    before it have been forwarded, the last line printed is the
    transcription-failure message, the batch is gone from the queue and
    [model] still holds the same handle.  After any callbacks that follow,
    the next tick that drains a batch above the threshold calls [transcribe]
    on that handle again, and every segment the engine then returns is
    shown in the window, in order. *)
Theorem transcribe_failure_is_contained
  (engine1 : Engine) (st : State) (m : Model) (texts : list string) (e : string) :
  model st = Some m ->
  PyQueue.items (audio_q st) <> [] ->
  is_silent (batch_of (audio_q st)) = false ->
  engine1 m (batch_of (audio_q st)) true "en" = segments_then_raise texts e ->
  let st1 := process_audio engine1 st in
  model st1 = Some m /\
  audio_q st1 = drained_queue (audio_q st) /\
  window st1 = option_map (show_all texts) (window st) /\
  last (trace st1) = Some (Print ("[ERROR] Transcription failed: " +:+ e)) /\
  transcribe_calls (trace st1) = S (transcribe_calls (trace st)) /\
  (forall ds st2 engine2 texts2,
      callbacks ds st1 = Continue st2 ->
      PyQueue.items (audio_q st2) <> [] ->
      is_silent (batch_of (audio_q st2)) = false ->
      engine2 m (batch_of (audio_q st2)) true "en" = segments_of texts2 ->
      let st3 := process_audio engine2 st2 in
      model st3 = Some m /\
      window st3 = option_map (show_all texts2) (window st2) /\
      trace st3
        = trace st2 ++ EngineTranscribe m (batch_of (audio_q st2)) true "en"
            :: map Print (consume_lines (has_window st2) (segments_of texts2))).
Proof.
  intros Hm Hne Hloud Hout st1.
  destruct (process_audio_engine engine1 st m Hm Hne Hloud) as (Hq & Hm1 & Hw & Ht).
  fold st1 in Hq, Hm1, Hw, Ht. rewrite Hout in Hw, Ht.
  rewrite stream_texts_then_raise in Hw.
  split; [ exact Hm1 | ]. split; [ exact Hq | ]. split; [ exact Hw | ].
  split; [ | split ].
  - rewrite Ht.
    destruct (consume_lines_then_raise (has_window st) texts e) as [before ->].
    rewrite map_app. cbn [map].
    rewrite app_comm_cons, app_assoc.
    apply last_snoc.
  - rewrite Ht, transcribe_calls_app.
    change (transcribe_calls (EngineTranscribe m ?a true "en" :: ?t))
      with (S (transcribe_calls t)).
    rewrite transcribe_calls_prints. lia.
  - intros ds st2 engine2 texts2 Hrun Hne2 Hloud2 Hout2 st3.
    assert (Hm2 : model st2 = Some m).
    { rewrite (callbacks_model _ _ _ Hrun). exact Hm1. }
    destruct (process_audio_engine engine2 st2 m Hm2 Hne2 Hloud2)
      as (_ & Hm3 & Hw3 & Ht3).
    fold st3 in Hm3, Hw3, Ht3. rewrite Hout2 in Hw3, Ht3.
    rewrite stream_texts_segments_of in Hw3. auto.
Qed.

Lemma transcribe_failure_is_contained_witness :
  let st := state_with [[500; -20]; [700]] (Some tiny_on_cpu) in
  let st1 := process_audio (failing_engine ["par"] "decoder crashed") st in
  let st2 := set_audio_q (push_drop_oldest [900] (audio_q st1)) st1 in
  model st1 = Some tiny_on_cpu /\
  last (trace st1) = Some (Print "[ERROR] Transcription failed: decoder crashed") /\
  window (process_audio (fixed_engine ["hello"; "world"]) st2)
    = Some (show_all ["hello"; "world"] (show_all ["par"] CaptionWindow_init)).
Proof.
  intros st st1 st2.
  destruct (transcribe_failure_is_contained
              (failing_engine ["par"] "decoder crashed") st tiny_on_cpu
              ["par"] "decoder crashed")
    as (Hm & _ & _ & Hlast & _ & Hnext);
    [ reflexivity | discriminate | reflexivity | reflexivity | ].
  destruct (Hnext [([900], None)] st2 (fixed_engine ["hello"; "world"])
              ["hello"; "world"])
    as (_ & Hw & _);
    [ reflexivity | discriminate | reflexivity | reflexivity | ].
  split; [ exact Hm | ]. split; [ exact Hlast | ]. exact Hw.
Defined.

(** ** What a tick removes stays removed *)

Lemma drained_queue_ok (q : PyQueue.Queue Frame) :
  queue_ok q -> queue_ok (drained_queue q).
Proof.
  intros [Hm Hs]. split; [ exact Hm | ].
  unfold PyQueue.qsize, drained_queue in *. simpl. rewrite length_drop. lia.
Qed.

Lemma audio_callback_ok (f : Frame) (s : option string) (st : State) :
  queue_ok (audio_q st) ->
  match audio_callback f s st with
  | Continue st' | Aborted st' => queue_ok (audio_q st')
  end.
Proof.
  intros Hok. unfold audio_callback.
  destruct (max_amp f) as [a | ]; [ destruct (Qltb (1 # 100) a) | ];
    destruct s; simpl; auto using push_drop_oldest_ok.
Qed.

Lemma process_audio_ok (engine : Engine) (st : State) :
  queue_ok (audio_q st) -> queue_ok (audio_q (process_audio engine st)).
Proof.
  intros Hok. destruct (process_audio_queue engine st) as [-> | [_ ->]];
    [ by apply drained_queue_ok | done ].
Qed.

Lemma event_loop_queue_ok (evs : list LoopEvent) :
  forall active st,
    queue_ok (audio_q st) -> queue_ok (audio_q (event_loop evs active st)).
Proof.
  induction evs as [ | [f s | engine] evs IH]; intros active st Hok; simpl.
  - exact Hok.
  - destruct active; [ | by apply IH ].
    pose proof (audio_callback_ok f s st Hok) as H.
    destruct (audio_callback f s st); by apply IH.
  - apply IH. by apply process_audio_ok.
Qed.

(** C2: for every run of callbacks on non-empty blocks, starting from a
    queue within its bound [C = AUDIO_QUEUE_MAXSIZE]: when more than [C]
    blocks are pushed, the queue ends up holding exactly the last [C]
    pushed blocks in their order; after every prefix of the run, and after
    any interleaving of callbacks and ticks, the size is between [0] and
    [C]; and a push into a full queue removes exactly the oldest block and
    appends the new one. *)
Theorem audio_q_holds_last_pushed
  (st : State) (ds : list (Frame * option string)) :
  queue_ok (audio_q st) ->
  Forall (fun d => fst d <> []) ds ->
  let C := Z.to_nat AUDIO_QUEUE_MAXSIZE in
  let pushed := filter admitted (map fst ds) in
  (exists st',
      callbacks ds st = Continue st' /\
      ((C < length pushed)%nat -> PyQueue.items (audio_q st') = lastn C pushed)) /\
  (forall k, exists stk,
      callbacks (take k ds) st = Continue stk /\
      0 <= PyQueue.qsize (audio_q stk) <= AUDIO_QUEUE_MAXSIZE) /\
  (forall evs active,
      0 <= PyQueue.qsize (audio_q (event_loop evs active st)) <= AUDIO_QUEUE_MAXSIZE) /\
  (forall f s st0,
      f <> [] -> admitted f = true ->
      queue_ok (audio_q st0) -> PyQueue.full (audio_q st0) = true ->
      exists st1 oldest rest,
        audio_callback f s st0 = Continue st1 /\
        PyQueue.items (audio_q st0) = oldest :: rest /\
        PyQueue.items (audio_q st1) = rest ++ [f]).
Proof.
  intros Hok Hne C pushed. repeat split.
  - destruct (callbacks_queue ds st Hok Hne) as (st' & Hrun & _ & _ & _ & Hitems).
    exists st'. split; [ exact Hrun | ]. intros HN.
    rewrite Hitems. apply lastn_app_r. subst C pushed. lia.
  - intros k.
    destruct (callbacks_queue (take k ds) st Hok) as (stk & Hrun & _ & _ & Hokk & _).
    { by apply Forall_take. }
    exists stk. split; [ exact Hrun | ].
    split; [ apply qsize_nonneg | apply Hokk ].
  - apply qsize_nonneg.
  - by apply event_loop_queue_ok.
  - intros f s st0 Hf Hadm Hok0 Hfull.
    destruct (audio_callback_queue f s st0 Hf) as (st1 & Hcb & _ & _ & Hq).
    rewrite Hadm in Hq.
    destruct (push_drop_oldest_full f (audio_q st0) Hok0 Hfull)
      as (oldest & rest & Hitems & Hpush).
    exists st1, oldest, rest. rewrite Hq. auto.
Qed.

Lemma audio_q_holds_last_pushed_witness :
  exists st',
    callbacks (map loud_block (seqZ 1 25)) initial_state = Continue st' /\
    PyQueue.items (audio_q st') = map fst (map loud_block (seqZ 6 20)).
Proof.
  destruct (audio_q_holds_last_pushed initial_state (map loud_block (seqZ 1 25)))
    as ((st' & Hrun & Hlast) & _).
  - split; [ reflexivity | vm_compute; discriminate ].
  - repeat constructor; discriminate.
  - exists st'. split; [ exact Hrun | ].
    rewrite Hlast; [ reflexivity | vm_compute; lia ].
Defined.

(** C10: a tick that ends at the silence gate or at the missing-model
    check (an empty queue falls under the first: nothing is drained) has
    already taken up to [MAX_QUEUE_SIZE] blocks off the front of the queue.
    The queue it leaves is the old content without those blocks; the engine
    was not called on them; the next tick drains from the blocks behind
    them; and whatever callbacks follow, the queue holds only blocks that
    were left or newly pushed. *)
Theorem skipped_tick_discards_drained (engine : Engine) (st : State) :
  let drained := fst (drain_up_to (Z.to_nat MAX_QUEUE_SIZE) (audio_q st)) in
  let st' := process_audio engine st in
  is_silent (batch_of (audio_q st)) = true \/ model st = None ->
  drained = take (Z.to_nat MAX_QUEUE_SIZE) (PyQueue.items (audio_q st)) /\
  Z.of_nat (length drained) <= MAX_QUEUE_SIZE /\
  PyQueue.items (audio_q st) = drained ++ PyQueue.items (audio_q st') /\
  transcribe_calls (trace st') = transcribe_calls (trace st) /\
  fst (drain_up_to (Z.to_nat MAX_QUEUE_SIZE) (audio_q st'))
    = take (Z.to_nat MAX_QUEUE_SIZE)
        (drop (Z.to_nat MAX_QUEUE_SIZE) (PyQueue.items (audio_q st))) /\
  (forall ds,
      queue_ok (audio_q st) ->
      Forall (fun d => fst d <> []) ds ->
      exists st2,
        callbacks ds st' = Continue st2 /\
        PyQueue.items (audio_q st2)
          = lastn (Z.to_nat AUDIO_QUEUE_MAXSIZE)
              (drop (Z.to_nat MAX_QUEUE_SIZE) (PyQueue.items (audio_q st))
                 ++ filter admitted (map fst ds))).
Proof.
  intros drained st' Hskip.
  destruct (process_audio_items engine st) as [Hitems Hmax]. fold st' in Hitems, Hmax.
  assert (Hdr : drained = take (Z.to_nat MAX_QUEUE_SIZE) (PyQueue.items (audio_q st))).
  { subst drained. by rewrite drain_up_to_spec. }
  split; [ exact Hdr | ]. split; [ | split; [ | split; [ | split ] ] ].
  - rewrite Hdr, length_take. change MAX_QUEUE_SIZE with 10. lia.
  - rewrite Hdr, Hitems. symmetry. apply take_drop.
  - destruct Hskip as [Hsilent | Hnone].
    + destruct (process_audio_silent engine st Hsilent) as (Ht & _).
      exact (f_equal transcribe_calls Ht).
    + exact (process_audio_unloaded engine st Hnone).
  - rewrite drain_up_to_spec. simpl. by rewrite Hitems.
  - intros ds Hok Hne.
    assert (Hok' : queue_ok (audio_q st')).
    { destruct (process_audio_queue engine st) as [Hq | [_ Hq]]; fold st' in Hq.
      - rewrite Hq. by apply drained_queue_ok.
      - by rewrite Hq. }
    destruct (callbacks_queue ds st' Hok' Hne) as (st2 & Hrun & _ & _ & _ & Hi).
    exists st2. split; [ exact Hrun | ]. by rewrite Hi, Hitems.
Qed.

Lemma skipped_tick_discards_drained_witness :
  faint_blocks 12
  = faint_blocks 10
      ++ PyQueue.items
           (audio_q (process_audio quiet_engine
                       (state_with (faint_blocks 12) (Some tiny_on_cpu)))).
Proof.
  destruct (skipped_tick_discards_drained quiet_engine
              (state_with (faint_blocks 12) (Some tiny_on_cpu)))
    as (_ & _ & Hsplit & _).
  - left. reflexivity.
  - exact Hsplit.
Defined.

Example skipped_tick_leaves_the_rest :
  PyQueue.items
    (audio_q (process_audio quiet_engine
                (state_with (faint_blocks 12) (Some tiny_on_cpu))))
  = [[11]; [12]].
Proof. reflexivity. Qed.

(** * Further properties of the pipeline *)

(** ** The capture callback *)

(** X1: on a non-empty block of int16 samples the callback always returns
    normally; it queues the block (dropping the oldest when full) when some
    sample is neither [0] nor [-32768], and leaves the queue untouched when
    every sample is [0] or [-32768]. *)
Theorem audio_callback_gate (f : Frame) (s : option string) (st : State) :
  f <> [] ->
  Forall is_int16 f ->
  exists st',
    audio_callback f s st = Continue st' /\
    (Exists (fun x => x <> 0 /\ x <> int16_min) f ->
       audio_q st' = push_drop_oldest f (audio_q st)) /\
    (Forall (fun x => x = 0 \/ x = int16_min) f -> audio_q st' = audio_q st).
Proof.
  intros Hne Hint.
  destruct (audio_callback_queue f s st Hne) as (st' & Hcb & _ & _ & Hq).
  exists st'. split; [ exact Hcb | ]. split.
  - intros Hex. apply (admitted_iff f Hint) in Hex. by rewrite Hex in Hq.
  - intros Hall. destruct (admitted f) eqn:Hadm; [ | exact Hq ].
    apply (admitted_iff f Hint) in Hadm.
    apply Exists_exists in Hadm as (x & Hx & Hx0 & Hxm).
    rewrite Forall_forall in Hall. destruct (Hall x Hx); contradiction.
Qed.

Lemma audio_callback_gate_witness :
  exists st',
    audio_callback [0; -32768; 0] None (state_with [] None) = Continue st' /\
    audio_q st' = audio_q (state_with [] None).
Proof.
  destruct (audio_callback_gate [0; -32768; 0] None (state_with [] None))
    as (st' & Hcb & _ & Hkeep).
  - discriminate.
  - repeat constructor; unfold int16_min, int16_max; lia.
  - exists st'. split; [ exact Hcb | ]. apply Hkeep.
    repeat (apply List.Forall_cons; [ (left; reflexivity) || (right; reflexivity) | ]).
    apply List.Forall_nil.
Defined.

(** X2: a driver status changes nothing but stdout: the callback called
    with a status ends the same way as without one, in the same state
    except for one warning line that carries the status. *)
Theorem status_only_logs (f : Frame) (s : string) (st : State) :
  match audio_callback f None st, audio_callback f (Some s) st with
  | Continue a, Continue b | Aborted a, Aborted b =>
      audio_q b = audio_q a /\ model b = model a /\ window b = window a /\
      trace a = trace st /\
      trace b = trace st ++ [Print ("[AUDIO CALLBACK WARNING] " +:+ s)]
  | _, _ => False
  end.
Proof.
  unfold audio_callback. destruct (max_amp f) as [a | ]; [ | done ].
  by destruct (Qltb (1 # 100) a).
Qed.

(** ** The batch of a tick *)

Lemma drained_samples (q : PyQueue.Queue Frame) :
  fst (drain_up_to (Z.to_nat MAX_QUEUE_SIZE) q)
  = take (Z.to_nat MAX_QUEUE_SIZE) (PyQueue.items q).
Proof. by rewrite drain_up_to_spec. Qed.

(** X3: in terms of the raw samples, a drained int16 batch is discarded as
    silent exactly when no sample exceeds 32 in magnitude. *)
Theorem silence_gate_on_samples (q : PyQueue.Queue Frame) :
  let samples := concat (fst (drain_up_to (Z.to_nat MAX_QUEUE_SIZE) q)) in
  Forall is_int16 samples ->
  is_silent (batch_of q) = true <-> Forall (fun s => -32 <= s <= 32) samples.
Proof.
  intros samples Hint.
  assert (Haudio : batch_of q = map (fun s => (inject_Z s / 32768)%Q) samples).
  { unfold batch_of. by apply normalize_int16. }
  unfold is_silent. rewrite Qltb_lt, Haudio. split.
  - intros Hlt. apply Forall_forall. intros s Hs.
    assert (Hle : (Qabs (inject_Z s / 32768) <= peak_of
                     (map (fun s => (inject_Z s / 32768)%Q) samples))%Q).
    { apply peak_of_lower.
      apply (in_map (fun s => (inject_Z s / 32768)%Q)). by apply list_elem_of_In. }
    rewrite Qabs_scaled_int16 in Hle.
    pose proof (Qle_lt_trans _ _ _ Hle Hlt) as H.
    unfold Qlt, SILENCE_THRESHOLD in H. simpl in H. lia.
  - intros Hall.
    apply Qle_lt_trans with (y := (32 # 32768)%Q); [ | done ].
    apply peak_of_upper; [ done | ].
    apply Forall_map. eapply Forall_impl; [ exact Hall | ].
    intros s Hs. cbv beta in Hs.
    rewrite Qabs_scaled_int16. unfold Qle. cbn [Qnum Qden]. lia.
Qed.

Lemma silence_gate_on_samples_witness :
  is_silent (batch_of (PyQueue.mk 20 [[3; -32]; [32; 0]])) = true.
Proof.
  apply (silence_gate_on_samples (PyQueue.mk 20 [[3; -32]; [32; 0]])).
  - simpl. repeat (apply List.Forall_cons; [ unfold is_int16, int16_min, int16_max; lia | ]).
    apply List.Forall_nil.
  - simpl. repeat (apply List.Forall_cons; [ lia | ]). apply List.Forall_nil.
Defined.

Lemma length_concat_uniform {A} (n : nat) (l : list (list A)) :
  Forall (fun f => length f = n) l -> length (concat l) = (n * length l)%nat.
Proof.
  induction 1 as [ | f l Hf _ IH]; simpl; [ lia | ].
  rewrite length_app, IH, Hf. lia.
Qed.

Lemma length_normalize_int16 (a : list Z) :
  length (normalize (IntArray np_int16 a)) = length a.
Proof. simpl. apply length_map. Qed.

(** X4: when every queued block has [BLOCKSIZE] samples, the batch of a
    tick has [BLOCKSIZE] samples for each of the at most [MAX_QUEUE_SIZE]
    blocks it takes: never more than [MAX_QUEUE_SECONDS] seconds of audio at
    [SAMPLE_RATE]. *)
Theorem batch_length_bound (q : PyQueue.Queue Frame) :
  Forall (fun f => Z.of_nat (length f) = BLOCKSIZE) (PyQueue.items q) ->
  Z.of_nat (length (batch_of q))
    = BLOCKSIZE * Z.min MAX_QUEUE_SIZE (PyQueue.qsize q) /\
  Z.of_nat (length (batch_of q)) <= MAX_QUEUE_SECONDS * SAMPLE_RATE.
Proof.
  intros Hall. unfold batch_of.
  rewrite length_normalize_int16, drained_samples.
  rewrite (length_concat_uniform (Z.to_nat BLOCKSIZE)).
  - rewrite length_take, Nat2Z.inj_mul, Nat2Z.inj_min, !Z2Nat.id by done.
    unfold PyQueue.qsize.
    change BLOCKSIZE with 8000. change MAX_QUEUE_SIZE with 10.
    change MAX_QUEUE_SECONDS with 5. change SAMPLE_RATE with 16000.
    unfold Frame. lia.
  - apply Forall_take. eapply Forall_impl; [ exact Hall | ].
    intros f Hf. simpl in Hf. lia.
Qed.

Lemma batch_length_bound_witness :
  Z.of_nat (length (batch_of (PyQueue.mk 20 (replicate 13 (replicate (Z.to_nat BLOCKSIZE) 7)))))
  = BLOCKSIZE * 10.
Proof.
  destruct (batch_length_bound (PyQueue.mk 20 (replicate 13 (replicate (Z.to_nat BLOCKSIZE) 7))))
    as [Heq _].
  - apply Forall_replicate. by rewrite length_replicate.
  - rewrite Heq. reflexivity.
Defined.

(** ** Runs of ticks *)

Lemma ticks_items (engines : list Engine) :
  forall active st,
    PyQueue.items (audio_q (event_loop (map Tick engines) active st))
    = drop (Z.to_nat MAX_QUEUE_SIZE * length engines)
           (PyQueue.items (audio_q st)).
Proof.
  induction engines as [ | e engines IH]; intros active st;
    cbn [map event_loop length].
  - by rewrite Nat.mul_0_r.
  - rewrite IH. destruct (process_audio_items e st) as [-> _].
    rewrite drop_drop. f_equal. lia.
Qed.

Lemma concat_chunks {A} (n k : nat) (l : list A) :
  concat (map (fun j => take n (drop (n * j) l)) (seq 0 k)) = take (n * k) l.
Proof.
  induction k as [ | k IH].
  - by rewrite Nat.mul_0_r, take_0.
  - rewrite seq_S, map_app, concat_app, IH. simpl. rewrite app_nil_r.
    rewrite take_take_drop. f_equal. lia.
Qed.

(** X5: over any run of consecutive ticks, the blocks the ticks take, put
    end to end in tick order, are the front of the queue in its original
    order, [MAX_QUEUE_SIZE] per tick, and what is left in the queue is the
    rest. *)
Theorem ticks_drain_in_order (engines : list Engine) (st : State) :
  let k := length engines in
  let n := Z.to_nat MAX_QUEUE_SIZE in
  concat (map (drained_by_tick engines st) (seq 0 k))
    = take (n * k) (PyQueue.items (audio_q st)) /\
  PyQueue.items (audio_q (event_loop (map Tick engines) true st))
    = drop (n * k) (PyQueue.items (audio_q st)).
Proof.
  intros k n. split; [ | apply ticks_items ].
  rewrite <- concat_chunks. f_equal.
  apply map_ext_in. intros j Hj. apply in_seq in Hj.
  unfold drained_by_tick. rewrite drained_samples, ticks_items.
  rewrite length_take. subst k n. f_equal. f_equal. lia.
Qed.

Example three_ticks_on_a_full_queue :
  map (drained_by_tick [quiet_engine; quiet_engine; quiet_engine]
         (state_with (faint_blocks 20) None)) (seq 0 3)
  = [faint_blocks 10; map (fun i => [i]) (seqZ 11 10); []].
Proof. reflexivity. Qed.

(** X6: the queue never holds more than two ticks' worth: from any state
    within the queue's bound, two ticks in a row with no callback in
    between leave the queue empty. *)
Theorem two_ticks_empty_the_queue (e1 e2 : Engine) (st : State) :
  queue_ok (audio_q st) ->
  PyQueue.items (audio_q (process_audio e2 (process_audio e1 st))) = [].
Proof.
  intros [_ Hsize].
  destruct (process_audio_items e2 (process_audio e1 st)) as [-> _].
  destruct (process_audio_items e1 st) as [-> _].
  rewrite drop_drop. apply drop_ge.
  unfold PyQueue.qsize in Hsize.
  change AUDIO_QUEUE_MAXSIZE with 20 in Hsize. change MAX_QUEUE_SIZE with 10.
  unfold Frame in *. lia.
Qed.

Lemma two_ticks_empty_the_queue_witness :
  PyQueue.items
    (audio_q (process_audio quiet_engine
                (process_audio quiet_engine (state_with (faint_blocks 20) None))))
  = [].
Proof.
  apply two_ticks_empty_the_queue. split; [ reflexivity | ].
  vm_compute. discriminate.
Defined.

(** ** What reaches the engine *)

Lemma process_audio_calls (engine : Engine) (st : State) :
  (transcribe_calls (trace (process_audio engine st))
   <= S (transcribe_calls (trace st)))%nat.
Proof.
  rewrite process_audio_unfold.
  destruct (PyQueue.items (audio_q st)); [ lia | ]. simpl.
  destruct (is_silent _); [ simpl; lia | ].
  destruct (model st) as [m | ].
  - destruct (consume_spec (engine m (batch_of (audio_q st)) true "en")
                (emit (EngineTranscribe m (batch_of (audio_q st)) true "en")
                   (set_audio_q (drained_queue (audio_q st)) st)))
      as (_ & _ & _ & ->).
    cbn [trace emit set_audio_q].
    rewrite !transcribe_calls_app, transcribe_calls_prints.
    replace (transcribe_calls [EngineTranscribe m (batch_of (audio_q st)) true "en"])
      with 1%nat by reflexivity.
    lia.
  - rewrite transcribe_calls_print. simpl. lia.
Qed.

(** X7: the engine is called at most once per tick and never from a
    callback: over any run of the event loop, the number of [transcribe]
    calls grows by at most the number of ticks. *)
Theorem at_most_one_call_per_tick (evs : list LoopEvent) (active : bool) (st : State) :
  (transcribe_calls (trace (event_loop evs active st))
   <= transcribe_calls (trace st) + length (filter is_tick evs))%nat.
Proof.
  revert active st.
  induction evs as [ | [f s | engine] evs IH]; intros active st; cbn [event_loop].
  - simpl. lia.
  - rewrite filter_cons_False by (simpl; exact id).
    destruct active; [ | apply IH ].
    pose proof (audio_callback_no_engine_event f s st) as Hc.
    destruct (audio_callback f s st) as [st' | st']; rewrite <- Hc; apply IH.
  - rewrite filter_cons_True by done. simpl.
    pose proof (process_audio_calls engine st) as Hp.
    specialize (IH active (process_audio engine st)). lia.
Qed.

Lemma good_prints (lines : list string) : Forall good_call (map Print lines).
Proof. induction lines; constructor; done. Qed.

Lemma no_calls_good (t : list Event) :
  transcribe_calls t = 0%nat -> Forall good_call t.
Proof.
  induction t as [ | e t IH]; [ constructor | ].
  change (e :: t) with ([e] ++ t). rewrite transcribe_calls_app.
  destruct e; simpl; intros H; try discriminate;
    (constructor; [ done | apply IH; exact H ]).
Qed.

Lemma process_audio_good (engine : Engine) (st : State) :
  Forall good_call (trace st) -> Forall good_call (trace (process_audio engine st)).
Proof.
  intros Hgood. rewrite process_audio_unfold.
  destruct (PyQueue.items (audio_q st)); [ done | ]. simpl.
  destruct (is_silent (batch_of (audio_q st))) eqn:Hs; [ done | ].
  destruct (model st) as [m | ].
  - destruct (consume_spec (engine m (batch_of (audio_q st)) true "en")
                (emit (EngineTranscribe m (batch_of (audio_q st)) true "en")
                   (set_audio_q (drained_queue (audio_q st)) st)))
      as (_ & _ & _ & ->).
    cbn [trace emit set_audio_q].
    repeat apply Forall_app_2; try done; [ | apply good_prints ].
    constructor; [ | constructor ]. simpl. by rewrite Hs.
  - cbn [trace print emit set_audio_q]. apply Forall_app_2; [ done | ].
    by repeat constructor.
Qed.

Lemma audio_callback_good (f : Frame) (s : option string) (st : State) :
  Forall good_call (trace st) ->
  match audio_callback f s st with
  | Continue st' | Aborted st' => Forall good_call (trace st')
  end.
Proof.
  intros Hgood. unfold audio_callback.
  destruct (max_amp f) as [a | ]; [ destruct (Qltb (1 # 100) a) | ];
    destruct s; cbn [trace print emit set_audio_q]; try done;
    (apply Forall_app_2; [ done | by repeat constructor ]).
Qed.

Lemma event_loop_good (evs : list LoopEvent) :
  forall active st,
    Forall good_call (trace st) ->
    Forall good_call (trace (event_loop evs active st)).
Proof.
  induction evs as [ | [f s | engine] evs IH]; intros active st Hgood;
    cbn [event_loop].
  - exact Hgood.
  - destruct active; [ | by apply IH ].
    pose proof (audio_callback_good f s st Hgood) as H.
    destruct (audio_callback f s st); by apply IH.
  - apply IH. by apply process_audio_good.
Qed.

(** X8: in a whole run of [main], every call to [transcribe] is made on a
    batch that passed the silence gate (so never on an empty or silent
    one), with the VAD filter on and ["en"] as language. *)
Theorem engine_only_sees_loud_batches (env : Env) :
  Forall good_call (trace (final_state (main env))).
Proof.
  destruct (before_stream_spec env) as (_ & _ & _ & Hcalls).
  apply no_calls_good in Hcalls.
  rewrite main_unfold.
  destruct (open_stream env (chosen_device env)) as [e | ]; cbn [final_state].
  - cbn [trace print emit]. apply Forall_app_2; [ done | by repeat constructor ].
  - by apply event_loop_good.
Qed.

(** ** From capture to batch *)

(** X9: blocks captured into an empty queue come out as the next batch in
    capture order: when the callbacks that ran since the queue was empty
    pushed no more blocks than the queue holds, the batch of the next tick
    is the normalised concatenation of the first [MAX_QUEUE_SIZE] pushed
    blocks. *)
Theorem captured_blocks_form_the_batch
  (st : State) (ds : list (Frame * option string)) :
  queue_ok (audio_q st) ->
  PyQueue.items (audio_q st) = [] ->
  Forall (fun d => fst d <> []) ds ->
  let pushed := filter admitted (map fst ds) in
  (length pushed <= Z.to_nat AUDIO_QUEUE_MAXSIZE)%nat ->
  exists st',
    callbacks ds st = Continue st' /\
    batch_of (audio_q st')
      = normalize (IntArray np_int16
                     (concat (take (Z.to_nat MAX_QUEUE_SIZE) pushed))).
Proof.
  intros Hok Hempty Hne pushed Hlen.
  destruct (callbacks_queue ds st Hok Hne) as (st' & Hrun & _ & _ & _ & Hitems).
  exists st'. split; [ exact Hrun | ].
  unfold batch_of. rewrite drained_samples, Hitems, Hempty. simpl.
  by rewrite lastn_all.
Qed.

Lemma captured_blocks_form_the_batch_witness :
  exists st',
    callbacks [([0; 0], None); ([100; -200], Some "input overflow"); ([0; 300], None)]
              (state_with [] None) = Continue st' /\
    batch_of (audio_q st')
      = [(100 # 32768)%Q; (-200 # 32768)%Q; (0 # 32768)%Q; (300 # 32768)%Q].
Proof.
  destruct (captured_blocks_form_the_batch (state_with [] None)
              [([0; 0], None); ([100; -200], Some "input overflow"); ([0; 300], None)])
    as (st' & Hrun & Hbatch).
  - split; [ reflexivity | vm_compute; discriminate ].
  - reflexivity.
  - repeat (apply List.Forall_cons; [ discriminate | ]). apply List.Forall_nil.
  - vm_compute. lia.
  - exists st'. split; [ exact Hrun | ]. rewrite Hbatch. reflexivity.
Defined.

(** * The caption window *)

Lemma append_nil_l (b : string) : "" +:+ b = b.
Proof. reflexivity. Qed.

Lemma append_cons (x : Ascii.ascii) (a b : string) :
  String x a +:+ b = String x (a +:+ b).
Proof. reflexivity. Qed.

Lemma append_assoc (a b c : string) : (a +:+ b) +:+ c = a +:+ (b +:+ c).
Proof.
  induction a as [ | x a IH]; [ reflexivity | ].
  rewrite !append_cons. by rewrite IH.
Qed.

Lemma lines_of_snoc (l : list string) (t rest : string) :
  lines_of (l ++ [t]) +:+ rest = lines_of l +:+ (t +:+ newline +:+ rest).
Proof.
  induction l as [ | x l IH]; simpl.
  - by rewrite !append_assoc, !append_nil_l.
  - by rewrite !append_assoc, IH.
Qed.

Lemma append_transcript_mode (text : string) (w : CaptionWindow) :
  mode (append_transcript text w) = mode w.
Proof. unfold append_transcript. by destruct (String.eqb (mode w) "live"). Qed.

Lemma show_all_spec (texts : list string) :
  forall w,
    let w' := show_all texts w in
    mode w' = mode w /\
    (mode w = "live" ->
       big_label w' = default (big_label w) (last texts) /\
       history w' = lines_of (rev texts) +:+ history w /\
       comprehensive_text w' = comprehensive_text w) /\
    (mode w <> "live" ->
       big_label w' = big_label w /\
       history w' = history w /\
       comprehensive_text w' = lines_of (rev texts) +:+ comprehensive_text w).
Proof.
  induction texts as [ | t texts IH]; intros w.
  - simpl. auto.
  - change (show_all (t :: texts) w) with (show_all texts (append_transcript t w)).
    destruct (IH (append_transcript t w)) as (Hm & Hlive & Hcomp).
    rewrite append_transcript_mode in Hm, Hlive, Hcomp.
    cbn zeta. split; [ exact Hm | ]. split; intros Hw.
    + destruct (Hlive Hw) as (Hb & Hh & Hc). rewrite Hb, Hh, Hc.
      unfold append_transcript. rewrite Hw. simpl.
      rewrite lines_of_snoc, last_cons. by destruct (last texts).
    + destruct (Hcomp Hw) as (Hb & Hh & Hc). rewrite Hb, Hh, Hc.
      unfold append_transcript.
      apply String.eqb_neq in Hw. rewrite Hw. simpl.
      by rewrite lines_of_snoc.
Qed.

(** X10: segments of printable ASCII text shown one after the other never
    change the mode.  In live mode the big caption is the last segment and
    the history gets the segments newest first, one per line, above what it
    held; the comprehensive transcript is untouched.  In any other mode it
    is the comprehensive transcript that gets them, newest first, and
    caption and history are untouched. *)
Theorem captions_newest_first (texts : list string) (w : CaptionWindow) :
  Forall (fun t => plain_text t = true) texts ->
  let w' := show_all texts w in
  mode w' = mode w /\
  (mode w = "live" ->
     big_label w' = default (big_label w) (last texts) /\
     history w' = lines_of (rev texts) +:+ history w /\
     comprehensive_text w' = comprehensive_text w) /\
  (mode w <> "live" ->
     big_label w' = big_label w /\
     history w' = history w /\
     comprehensive_text w' = lines_of (rev texts) +:+ comprehensive_text w).
Proof. intros _. apply show_all_spec. Qed.

Lemma captions_newest_first_witness :
  history (show_all ["one"; "two"; "three"] CaptionWindow_init)
  = "three" +:+ newline +:+ "two" +:+ newline +:+ "one" +:+ newline.
Proof.
  destruct (captions_newest_first ["one"; "two"; "three"] CaptionWindow_init)
    as (_ & Hlive & _).
  { repeat (apply List.Forall_cons; [ reflexivity | ]). apply List.Forall_nil. }
  destruct Hlive as (_ & Hh & _); [ reflexivity | ].
  rewrite Hh. reflexivity.
Defined.

(** X11: what was captioned in live mode is not carried over: for segments
    of printable ASCII text, after a switch to another mode the
    comprehensive transcript holds only the segments that arrive from then
    on (above what it held before), while the history keeps the live
    ones. *)
Theorem live_captions_stay_in_history
  (w : CaptionWindow) (texts1 texts2 : list string) (m : string) :
  Forall (fun t => plain_text t = true) texts1 ->
  Forall (fun t => plain_text t = true) texts2 ->
  mode w = "live" ->
  m <> "live" ->
  let w' := show_all texts2 (set_mode m (show_all texts1 w)) in
  mode w' = m /\
  comprehensive_text w' = lines_of (rev texts2) +:+ comprehensive_text w /\
  history w' = lines_of (rev texts1) +:+ history w /\
  big_label w' = default (big_label w) (last texts1).
Proof.
  intros _ _ Hw Hm.
  destruct (show_all_spec texts1 w) as (_ & Hlive & _).
  destruct (Hlive Hw) as (Hb & Hh & Hc).
  destruct (show_all_spec texts2 (set_mode m (show_all texts1 w))) as (Hm2 & _ & Hcomp).
  destruct (Hcomp Hm) as (Hb2 & Hh2 & Hc2).
  cbn zeta. rewrite Hm2, Hb2, Hh2, Hc2. simpl. rewrite Hb, Hh, Hc. auto.
Qed.

Lemma live_captions_stay_in_history_witness :
  comprehensive_text
    (show_all ["later"] (set_mode "comprehensive" (show_all ["early"] CaptionWindow_init)))
  = "later" +:+ newline.
Proof.
  destruct (live_captions_stay_in_history CaptionWindow_init ["early"] ["later"]
              "comprehensive")
    as (_ & Hc & _);
    [ by apply List.Forall_cons | by apply List.Forall_cons
    | reflexivity | discriminate | ].
  rewrite Hc. reflexivity.
Defined.

(** * Device lookup *)

Lemma prefix_spec (sub : string) :
  forall s, String.prefix sub s = true <-> exists after, s = sub +:+ after.
Proof.
  induction sub as [ | a sub IH]; intros s.
  - split; [ intros _; by exists s | by destruct s ].
  - destruct s as [ | b s]; simpl.
    + split; [ discriminate | intros [after H]; discriminate ].
    + destruct (Ascii.ascii_dec a b) as [-> | Hab].
      * rewrite IH. split; intros [after H]; exists after.
        -- by rewrite append_cons, H.
        -- rewrite append_cons in H. by inversion H.
      * split; [ discriminate | ].
        intros [after H]. rewrite append_cons in H. injection H as Hb _. congruence.
Qed.

Lemma contains_unfold (sub s : string) :
  contains sub s
  = String.prefix sub s ||
    match s with
    | EmptyString => false
    | String _ rest => contains sub rest
    end.
Proof. by destruct s. Qed.

(** [contains] decides Python's [sub in s]. *)
Lemma contains_spec (sub s : string) :
  contains sub s = true <-> occurs_in sub s.
Proof.
  unfold occurs_in. split.
  - induction s as [ | c s IH]; rewrite contains_unfold, orb_true_iff;
      intros [Hp | Hc]; try discriminate.
    + apply prefix_spec in Hp as [after ->]. by exists "", after.
    + apply prefix_spec in Hp as [after ->]. by exists "", after.
    + destruct (IH Hc) as (before & after & ->).
      by exists (String c before), after.
  - intros (before & after & ->).
    induction before as [ | c before IH]; rewrite contains_unfold, orb_true_iff.
    + left. apply prefix_spec. by exists after.
    + right. rewrite append_cons. exact IH.
Qed.

Lemma find_from_spec (sub : string) (devs : list (option string)) :
  forall idx i,
    find_from idx sub devs = Some i <->
    exists k name,
      i = (idx + k)%nat /\
      devs !! k = Some (Some name) /\
      contains (lower sub) (lower name) = true /\
      forall j name', (j < k)%nat -> devs !! j = Some (Some name') ->
                      contains (lower sub) (lower name') = false.
Proof.
  induction devs as [ | d devs IH]; intros idx i.
  - simpl. split; [ discriminate | intros (k & name & _ & H & _); discriminate ].
  - assert (Hshift : find_from (S idx) sub devs = Some i <->
      exists k name,
        i = (idx + S k)%nat /\ devs !! k = Some (Some name) /\
        contains (lower sub) (lower name) = true /\
        forall j name', (j < k)%nat -> devs !! j = Some (Some name') ->
                        contains (lower sub) (lower name') = false).
    { rewrite IH. split; intros (k & name & Hi & H); exists k, name;
        (split; [ lia | exact H ]). }
    destruct d as [name0 | ]; simpl.
    + destruct (contains (lower sub) (lower name0)) eqn:Hc.
      * split.
        -- intros [= <-]. exists 0%nat, name0.
           repeat split; [ lia | done | ]. intros j n' Hj. lia.
        -- intros (k & name & -> & Hk & Hm & Hmin).
           destruct k as [ | k]; [ f_equal; lia | ].
           specialize (Hmin 0%nat name0 ltac:(lia) eq_refl). congruence.
      * rewrite Hshift. split.
        -- intros (k & name & -> & Hk & Hm & Hmin). exists (S k), name.
           repeat split; try done.
           intros [ | j] n' Hj Hl; simpl in Hl; [ congruence | ].
           apply (Hmin j n'); [ lia | done ].
        -- intros (k & name & -> & Hk & Hm & Hmin).
           destruct k as [ | k]; simpl in Hk; [ congruence | ].
           exists k, name. repeat split; try done.
           intros j n' Hj Hl. apply (Hmin (S j) n'); [ lia | done ].
    + rewrite Hshift. split.
      * intros (k & name & -> & Hk & Hm & Hmin). exists (S k), name.
        repeat split; try done.
        intros [ | j] n' Hj Hl; simpl in Hl; [ congruence | ].
        apply (Hmin j n'); [ lia | done ].
      * intros (k & name & -> & Hk & Hm & Hmin).
        destruct k as [ | k]; simpl in Hk; [ congruence | ].
        exists k, name. repeat split; try done.
        intros j n' Hj Hl. apply (Hmin (S j) n'); [ lia | done ].
Qed.

Lemma find_device_by_name_first_found
  (devices : DeviceList) (name_substring : string) (i : nat) :
  find_device_by_name devices name_substring = Some i ->
  exists devs name,
    devices = Some devs /\
    devs !! i = Some (Some name) /\
    occurs_in (lower name_substring) (lower name).
Proof.
  destruct devices as [devs | ]; simpl; [ | discriminate ].
  intros H. apply find_from_spec in H as (k & name & -> & Hk & Hm & _).
  exists devs, name. repeat split; try done. by apply contains_spec.
Qed.

(** X12: for a substring and device names within ASCII,
    [find_device_by_name] returns index [i] exactly when the device list
    could be read, entry [i] has a name that contains the substring when
    both are lower-cased, and no entry before it does; entries whose name
    cannot be read are passed over. *)
Theorem find_device_by_name_first_match
  (devices : DeviceList) (name_substring : string) (i : nat) :
  isascii name_substring = true ->
  ascii_names devices = true ->
  find_device_by_name devices name_substring = Some i <->
  exists devs name,
    devices = Some devs /\
    devs !! i = Some (Some name) /\
    occurs_in (lower name_substring) (lower name) /\
    forall j name', (j < i)%nat -> devs !! j = Some (Some name') ->
                    ~ occurs_in (lower name_substring) (lower name').
Proof.
  intros _ _. destruct devices as [devs | ]; simpl.
  - rewrite find_from_spec. split.
    + intros (k & name & -> & Hk & Hm & Hmin). exists devs, name.
      repeat split; try done.
      * by apply contains_spec.
      * intros j n' Hj Hl Hocc. apply contains_spec in Hocc.
        rewrite (Hmin j n' Hj Hl) in Hocc. discriminate.
    + intros (devs' & name & [= <-] & Hk & Hm & Hmin). exists i, name.
      repeat split; try done.
      * by apply contains_spec.
      * intros j n' Hj Hl.
        destruct (contains (lower name_substring) (lower n')) eqn:Hc; [ | done ].
        apply contains_spec in Hc. by destruct (Hmin j n' Hj Hl).
  - split; [ discriminate | intros (devs & name & H & _); discriminate ].
Qed.

Lemma find_device_by_name_first_match_witness :
  exists name,
    [Some "Speakers"; None; Some "cable output (vb-audio virtual cable)"] !! 2%nat
      = Some (Some name) /\
    occurs_in (lower DEVICE_NAME) (lower name).
Proof.
  destruct (find_device_by_name_first_match
              (Some [Some "Speakers"; None; Some "cable output (vb-audio virtual cable)"])
              DEVICE_NAME 2 eq_refl eq_refl) as [Hfind _].
  destruct (Hfind eq_refl) as (devs & name & Hdevs & Hl & Hocc & _).
  injection Hdevs as <-. exists name. split; [ exact Hl | exact Hocc ].
Defined.

Example find_device_ignores_case :
  find_device_by_name
    (Some [Some "Speakers"; None; Some "cable output (vb-audio virtual cable)"])
    DEVICE_NAME
  = Some 2%nat.
Proof. reflexivity. Qed.

Lemma chosen_device_unfold (env : Env) :
  chosen_device env =
  match find_device_by_name (devices env)
          (or_default (config_device_name env) DEVICE_NAME) with
  | Some i => Some i
  | None => find_device_by_name (devices env) DEVICE_NAME
  end.
Proof.
  unfold chosen_device, select_device. rewrite prefer_name_truthy.
  destruct (find_device_by_name (devices env) _) as [i | ]; simpl; [ done | ].
  by destruct (find_device_by_name (devices env) DEVICE_NAME).
Qed.

(** X13: the device lines 435-453 resolve, for a configured name and
    device names within ASCII.  A configured name that matches a device
    decides the index, whatever the built-in name would match.  A
    configured name that matches nothing is as good as none: the index is
    the one the built-in name gives.  Whenever an index is chosen it is an
    entry of the device list with a readable name that contains one of the
    two names; and choosing the device touches neither queue, model nor
    window. *)
Theorem device_selection_precedence (env : Env) :
  let preferred := or_default (config_device_name env) DEVICE_NAME in
  isascii preferred = true ->
  ascii_names (devices env) = true ->
  (forall i, find_device_by_name (devices env) preferred = Some i ->
             chosen_device env = Some i) /\
  (find_device_by_name (devices env) preferred = None ->
   chosen_device env = chosen_device (with_config_device_name None env)) /\
  (forall i, chosen_device env = Some i ->
     exists devs name,
       devices env = Some devs /\ devs !! i = Some (Some name) /\
       (occurs_in (lower preferred) (lower name) \/
        occurs_in (lower DEVICE_NAME) (lower name))) /\
  (forall st, only_prints st (snd (select_device env st))).
Proof.
  intros preferred _ _. repeat split.
  - intros i Hi. rewrite chosen_device_unfold. fold preferred. by rewrite Hi.
  - intros Hnone. rewrite !chosen_device_unfold. fold preferred. rewrite Hnone.
    simpl. by destruct (find_device_by_name (devices env) DEVICE_NAME).
  - intros i. rewrite chosen_device_unfold. fold preferred.
    destruct (find_device_by_name (devices env) preferred) as [i' | ] eqn:Hp.
    + intros [= <-]. apply find_device_by_name_first_found in Hp
        as (devs & name & Hd & Hl & Hocc). exists devs, name. auto.
    + intros Hdef. apply find_device_by_name_first_found in Hdef
        as (devs & name & Hd & Hl & Hocc). exists devs, name. auto.
  - apply select_device_prints.
Qed.

Lemma device_selection_precedence_witness :
  chosen_device
    (with_config_device_name (Some "microphone") (sample_env true true None []))
  = Some 0%nat /\
  chosen_device
    (with_config_device_name (Some "headset") (sample_env true true None []))
  = chosen_device (sample_env true true None []).
Proof.
  destruct (device_selection_precedence
              (with_config_device_name (Some "microphone") (sample_env true true None []))
              eq_refl eq_refl)
    as (Hfirst & _).
  destruct (device_selection_precedence
              (with_config_device_name (Some "headset") (sample_env true true None []))
              eq_refl eq_refl)
    as (_ & Hfall & _).
  split; [ apply Hfirst; reflexivity | apply Hfall; reflexivity ].
Defined.

(** * The settings dialog *)

Lemma digit_not_colon (x : N) : Ascii.eqb (pretty_N_char x) colon = false.
Proof. unfold pretty_N_char. by repeat case_match. Qed.

Lemma pretty_N_go_colon_free (x : N) :
  forall s, colon_free s = true -> colon_free (pretty_N_go x s) = true.
Proof.
  induction (N.lt_wf_0 x) as [x _ IH]; intros s Hs.
  destruct (decide (x = 0)%N) as [-> | Hx]; [ by rewrite pretty_N_go_0 | ].
  rewrite pretty_N_go_step by lia. apply IH.
  - apply N.div_lt; lia.
  - cbn [colon_free]. by rewrite digit_not_colon, Hs.
Qed.

Lemma pretty_nat_colon_free (n : nat) : colon_free (pretty n) = true.
Proof.
  unfold pretty, pretty_nat, pretty, pretty_N.
  destruct (decide (N.of_nat n = 0)%N); [ done | ].
  by apply pretty_N_go_colon_free.
Qed.

Lemma split_once_unfold (sep s : string) :
  split_once sep s =
  if String.prefix sep s then Some ("", drop_chars (String.length sep) s)
  else
    match s with
    | EmptyString => None
    | String c rest =>
        match split_once sep rest with
        | Some (before, after) => Some (String c before, after)
        | None => None
        end
    end.
Proof. by destruct s. Qed.

Lemma prefix_colon_space (c : Ascii.ascii) (s : string) :
  Ascii.eqb c colon = false -> String.prefix ": " (String c s) = false.
Proof.
  intros Hc. destruct (String.prefix ": " (String c s)) eqn:Hp; [ | done ].
  apply prefix_spec in Hp as [after Hp]. injection Hp as -> _.
  discriminate Hc.
Qed.

Lemma split_once_colon_free (s t : string) :
  colon_free s = true -> split_once ": " (s +:+ ": " +:+ t) = Some (s, t).
Proof.
  induction s as [ | c s IH]; intros Hs.
  - rewrite append_nil_l, split_once_unfold.
    by rewrite (proj2 (prefix_spec ": " (": " +:+ t))) by (by exists t).
  - cbn [colon_free] in Hs. apply andb_prop in Hs as [Hc Hs].
    apply negb_true_iff in Hc.
    rewrite append_cons, split_once_unfold, prefix_colon_space by done.
    by rewrite (IH Hs).
Qed.

Lemma device_items_lookup (devs : list (option string)) (j : nat) (d : option string) :
  devs !! j = Some d ->
  device_items (Some devs) !! j = Some (pretty j +:+ ": " +:+ default "" d).
Proof. intros H. simpl. by rewrite list_lookup_imap, H. Qed.

Lemma device_name_of_item (j : nat) (name : string) :
  device_name_of (pretty j +:+ ": " +:+ name) = name.
Proof.
  unfold device_name_of.
  by rewrite split_once_colon_free by apply pretty_nat_colon_free.
Qed.

(** X14: the combo text of a device and the name saved from it agree: entry
    [j] of the device list is shown as its index, a colon, a space and its
    name (empty when the entry has none), and [save_and_close] recovers
    exactly that name from the text, also when the name itself contains a
    colon. *)
Theorem combo_text_round_trip
  (devs : list (option string)) (j : nat) (d : option string) :
  devs !! j = Some d ->
  device_items (Some devs) !! j = Some (pretty j +:+ ": " +:+ default "" d) /\
  device_name_of (pretty j +:+ ": " +:+ default "" d) = default "" d.
Proof.
  intros H. split; [ by apply device_items_lookup | apply device_name_of_item ].
Qed.

Lemma combo_text_round_trip_witness :
  device_items (Some [Some "Mic"; Some "Line: rear"]) !! 1%nat
    = Some "1: Line: rear" /\
  device_name_of "1: Line: rear" = "Line: rear".
Proof.
  exact (combo_text_round_trip [Some "Mic"; Some "Line: rear"] 1
           (Some "Line: rear") eq_refl).
Defined.

Lemma saved_mode (dlg : SettingsWindow) (file : ConfigFile) :
  fst (save_and_close dlg WriteOk file)
  = Holds (<["device_name" := device_name_of (currentText dlg)]>
             (<["mode" := if mode_live_checked dlg then "live" else "comprehensive"]> ∅)).
Proof. reflexivity. Qed.

Lemma saved_mode_lookup (name mode : string) :
  (<["device_name" := name]> (<["mode" := mode]> (∅ : gmap string string))) !! "mode"
  = Some mode.
Proof. rewrite lookup_insert_ne by done. apply lookup_insert_eq. Qed.

Lemma saved_name_lookup (name mode : string) :
  (<["device_name" := name]> (<["mode" := mode]> (∅ : gmap string string)))
    !! "device_name"
  = Some name.
Proof. apply lookup_insert_eq. Qed.

Lemma open_settings_raises (w : CaptionWindow) (devices : DeviceList)
  (u : UserInput) (wo : WriteOutcome) (file : ConfigFile) :
  truthy (load_config file !! "mode") = true ->
  open_settings w devices u wo file = SettingsRaised NONE_HAS_NO_SETCHECKED.
Proof. intros H. unfold open_settings. by rewrite H. Qed.

(** X15: the mode buttons of the dialog carry the ids [-2] and [-3], so
    [mode_group.button(0)] is [None]: whenever the configuration file holds
    a non-empty ['mode'], [open_settings] raises [AttributeError] before
    the dialog is shown, whatever the user would have done.  Every
    successful save writes such a ['mode'], so after one the dialog cannot
    be opened again. *)
Theorem settings_cannot_reopen_after_save
  (w : CaptionWindow) (devices : DeviceList) (u : UserInput) (wo : WriteOutcome) :
  button 0 mode_group = None /\
  (forall file,
     truthy (load_config file !! "mode") = true ->
     open_settings w devices u wo file = SettingsRaised NONE_HAS_NO_SETCHECKED) /\
  (forall dlg file,
     open_settings w devices u wo (fst (save_and_close dlg WriteOk file))
     = SettingsRaised NONE_HAS_NO_SETCHECKED).
Proof.
  split; [ reflexivity | ]. split.
  - intros file. apply open_settings_raises.
  - intros dlg file. apply open_settings_raises.
    rewrite saved_mode. cbn [load_config]. rewrite saved_mode_lookup.
    by destruct (mode_live_checked dlg).
Qed.

Lemma settings_cannot_reopen_after_save_witness :
  open_settings CaptionWindow_init (Some [Some "Mic"])
    (mkUser None None PressCancel) WriteOk
    (Holds (<["mode" := "live"]> ∅))
  = SettingsRaised NONE_HAS_NO_SETCHECKED.
Proof.
  destruct (settings_cannot_reopen_after_save CaptionWindow_init (Some [Some "Mic"])
              (mkUser None None PressCancel) WriteOk)
    as (_ & Hraise & _).
  apply Hraise. cbn [load_config]. by rewrite lookup_insert_eq.
Defined.

Lemma init_items (file : ConfigFile) (devices : DeviceList) :
  combo_items (SettingsWindow_init file devices) = device_items devices.
Proof. reflexivity. Qed.

(** X16: the first save.  While the configuration file holds no mode, a
    user who picks device [j] and a mode and presses Save, with the file
    written successfully, gets: a configuration holding that device's name
    and ['live'] or ['comprehensive'], nothing printed, and the caption
    window switched to the chosen mode. *)
Theorem first_save_is_applied
  (w : CaptionWindow) (devs : list (option string)) (j : nat) (d : option string)
  (live : bool) (file : ConfigFile) :
  truthy (load_config file !! "mode") = false ->
  devs !! j = Some d ->
  let chosen := if live then "live" else "comprehensive" in
  open_settings w (Some devs) (mkUser (Some j) (Some live) PressSave) WriteOk file
  = SettingsDone (set_mode chosen w)
      (Holds (<["device_name" := default "" d]> (<["mode" := chosen]> ∅))) [].
Proof.
  intros Hmode Hj chosen. unfold open_settings. rewrite Hmode.
  cbn [press pick_device pick_live].
  assert (Hcur : currentText
            (apply_user (mkUser (Some j) (Some live) PressSave)
               (SettingsWindow_init file (Some devs)))
          = pretty j +:+ ": " +:+ default "" d).
  { unfold apply_user, currentText. cbn [pick_device pick_live combo_current combo_items].
    rewrite init_items.
    assert (Hlt : (j <? length (device_items (Some devs)))%nat = true).
    { apply Nat.ltb_lt. simpl. rewrite length_imap. by eapply lookup_lt_Some. }
    rewrite Hlt. cbn [combo_current combo_items].
    by rewrite (device_items_lookup devs j d Hj). }
  unfold save_and_close. rewrite Hcur, device_name_of_item.
  cbn [apply_user mode_live_checked pick_live save_config load_config].
  fold chosen. by rewrite saved_mode_lookup.
Qed.

Lemma first_save_is_applied_witness :
  open_settings CaptionWindow_init (Some [Some "Mic"; Some "CABLE Output"])
    (mkUser (Some 1%nat) (Some false) PressSave) WriteOk NoFile
  = SettingsDone (set_mode "comprehensive" CaptionWindow_init)
      (Holds (<["device_name" := "CABLE Output"]> (<["mode" := "comprehensive"]> ∅)))
      [].
Proof.
  exact (first_save_is_applied CaptionWindow_init [Some "Mic"; Some "CABLE Output"] 1
           (Some "CABLE Output") false NoFile eq_refl eq_refl).
Defined.

(** X17: a save that fails is not noticed by the dialog.  While the
    configuration file holds no ['mode'] key, pressing Save when the file
    cannot be written prints the warning, leaves the file as it was (or
    unreadable, when it had already been truncated), still closes the
    dialog as accepted, and switches the caption window to ['live'],
    whichever mode the user had picked. *)
Theorem failed_save_ignores_choice
  (w : CaptionWindow) (devices : DeviceList) (u : UserInput)
  (e : string) (truncated : bool) (file : ConfigFile) :
  load_config file !! "mode" = None ->
  press u = PressSave ->
  open_settings w devices u (WriteFails e truncated) file
  = SettingsDone (set_mode "live" w)
      (if truncated then Unreadable else file)
      ["[WARN] Failed to save config: " +:+ e].
Proof.
  intros Hmode Hpress. unfold open_settings. rewrite Hmode, Hpress.
  cbn [truthy]. unfold save_and_close, save_config.
  destruct truncated; cbn [load_config]; [ by rewrite lookup_empty | by rewrite Hmode ].
Qed.

Lemma failed_save_ignores_choice_witness :
  open_settings (set_mode "comprehensive" CaptionWindow_init) (Some [Some "Mic"])
    (mkUser None (Some false) PressSave) (WriteFails "Permission denied" false) NoFile
  = SettingsDone (set_mode "live" (set_mode "comprehensive" CaptionWindow_init))
      NoFile ["[WARN] Failed to save config: Permission denied"].
Proof.
  exact (failed_save_ignores_choice (set_mode "comprehensive" CaptionWindow_init)
           (Some [Some "Mic"]) (mkUser None (Some false) PressSave)
           "Permission denied" false NoFile eq_refl eq_refl).
Defined.

(** * From the saved name to the next start *)






Example saved_device_shadowed_by_earlier_one :
  chosen_device
    (with_config_device_name (Some "Microphone")
       (mkEnv (Imported "1.0.3") None AnswerNo (sample_load true true) None
              (Some [Some "Microphone Array"; Some "Microphone"])
              (fun _ => None) []))
  = Some 0%nat.
Proof. reflexivity. Qed.

(** * The dialog's preselection *)

Lemma lower_append (a b : string) : lower (a +:+ b) = lower a +:+ lower b.
Proof.
  induction a as [ | c a IH]; [ done | ].
  rewrite append_cons. cbn [lower]. by rewrite append_cons, IH.
Qed.

Lemma occurs_in_suffix (sub front s : string) :
  occurs_in sub s -> occurs_in sub (front +:+ s).
Proof.
  intros (before & after & ->). exists (front +:+ before), after.
  by rewrite append_assoc.
Qed.

Lemma first_containing_no_later (needle : string) (texts : list string) :
  forall idx j t,
    texts !! j = Some t ->
    contains (lower needle) (lower t) = true ->
    exists k, first_containing idx needle texts = Some (idx + k)%nat /\ (k <= j)%nat.
Proof.
  induction texts as [ | t0 texts IH]; intros idx j t Hj Hc; [ done | ].
  destruct j as [ | j]; simpl in Hj.
  - injection Hj as ->. simpl. rewrite Hc. exists 0%nat. split; [ f_equal; lia | lia ].
  - simpl. destruct (contains (lower needle) (lower t0)).
    + exists 0%nat. split; [ f_equal; lia | lia ].
    + destruct (IH (S idx) j t Hj Hc) as (k & Hk & Hle).
      exists (S k). split; [ rewrite Hk; f_equal; lia | lia ].
Qed.

(** X19: for a saved name and device names within ASCII, the device the
    dialog preselects for the saved name is never later in the list than
    the device [find_device_by_name] gives for that name: the dialog matches
    the name against the whole combo text, index included, so it stops at
    the first entry whose text contains it. *)
Theorem preselected_no_later_than_used
  (file : ConfigFile) (devs : list (option string)) (name : string) (i : nat) :
  isascii name = true ->
  ascii_names (Some devs) = true ->
  load_config file !! "device_name" = Some name ->
  name <> "" ->
  find_device_by_name (Some devs) name = Some i ->
  exists k,
    combo_current (SettingsWindow_init file (Some devs)) = Some k /\ (k <= i)%nat.
Proof.
  intros _ _ Hcfg Hne Hfind. simpl in Hfind.
  apply find_from_spec in Hfind as (i' & n & Hi & Hl & Hm & _).
  simpl in Hi. subst i'.
  assert (Hitem : device_items (Some devs) !! i = Some (pretty i +:+ ": " +:+ n)).
  { by rewrite (device_items_lookup devs i (Some n) Hl). }
  assert (Hc : contains (lower name) (lower (pretty i +:+ ": " +:+ n)) = true).
  { apply contains_spec. rewrite !lower_append.
    apply occurs_in_suffix, occurs_in_suffix. by apply contains_spec. }
  destruct (first_containing_no_later name (device_items (Some devs)) 0 i _ Hitem Hc)
    as (k & Hk & Hle).
  exists k. split; [ | exact Hle ].
  unfold SettingsWindow_init. cbn [combo_current]. rewrite Hcfg.
  assert (Ht : truthy (Some name) = true) by (by destruct name).
  rewrite Ht.
  assert (Hd : or_default (Some name) "" = name) by (by destruct name).
  rewrite Hd. change (0 + k)%nat with k in Hk. by rewrite Hk.
Qed.

Lemma preselected_no_later_than_used_witness :
  exists k,
    combo_current
      (SettingsWindow_init (Holds (<["device_name" := "0"]> ∅))
         (Some [Some "Mic"; Some "Line 0"]))
    = Some k /\ (k <= 1)%nat.
Proof.
  apply (preselected_no_later_than_used (Holds (<["device_name" := "0"]> ∅))
           [Some "Mic"; Some "Line 0"] "0" 1).
  - reflexivity.
  - reflexivity.
  - cbn [load_config]. apply lookup_insert_eq.
  - discriminate.
  - reflexivity.
Defined.

Example preselection_matches_the_index :
  first_containing 0 "0" (device_items (Some [Some "Mic"; Some "Line 0"])) = Some 0%nat /\
  find_device_by_name (Some [Some "Mic"; Some "Line 0"]) "0" = Some 1%nat.
Proof. split; reflexivity. Qed.

Lemma current_without_devices (file : ConfigFile) (u : UserInput) :
  currentText (apply_user u (SettingsWindow_init file None)) = NO_DEVICES.
Proof.
  assert (Hinit : combo_current (SettingsWindow_init file None) = Some 0%nat).
  { unfold SettingsWindow_init. cbn [combo_current device_items].
    destruct (truthy (load_config file !! "device_name")); [ | done ].
    cbn [first_containing].
    by destruct (contains _ _). }
  unfold apply_user, currentText. cbn [combo_current combo_items].
  rewrite init_items, Hinit. cbn [device_items length].
  by destruct (pick_device u) as [[ | j] | ].
Qed.

(** X20: when the device query fails, the dialog's only combo entry is the
    placeholder ["(no devices found)"], and that is what a save stores as
    the device name: with no mode stored yet and the file writable,
    pressing Save leaves a configuration whose ['device_name'] is the
    placeholder text, whatever the user picked. *)
Theorem save_without_devices_stores_placeholder
  (w : CaptionWindow) (u : UserInput) (file : ConfigFile) :
  truthy (load_config file !! "mode") = false ->
  press u = PressSave ->
  exists w' file',
    open_settings w None u WriteOk file = SettingsDone w' file' [] /\
    config_device_name_of file' = Some NO_DEVICES.
Proof.
  intros Hmode Hpress. unfold open_settings. rewrite Hmode, Hpress.
  unfold save_and_close. rewrite current_without_devices.
  cbn [save_config]. eexists _, _. split; [ reflexivity | ].
  unfold config_device_name_of. cbn [load_config].
  replace (device_name_of NO_DEVICES) with NO_DEVICES by reflexivity.
  apply saved_name_lookup.
Qed.

Lemma save_without_devices_stores_placeholder_witness :
  exists w' file',
    open_settings CaptionWindow_init None (mkUser (Some 3%nat) None PressSave)
      WriteOk Unreadable
    = SettingsDone w' file' [] /\
    config_device_name_of file' = Some NO_DEVICES.
Proof.
  apply save_without_devices_stores_placeholder; reflexivity.
Defined.

(** * Where the model is looked for *)

(** X21: a non-empty [MODEL_PATH] is used as it is and the models directory
    is not consulted.  Otherwise the path is the first entry of the
    directory listing that is itself a directory, joined to the base;
    plain files before it are skipped.  When the variable is unset or
    empty and the directory is missing, cannot be listed or holds no
    directory, no usable path results. *)
Theorem model_path_resolution
  (sep : string) (env_var : option string) (base : string) (listing : DirListing) :
  (truthy env_var = true ->
     resolve_model_path sep env_var base listing = env_var) /\
  (truthy env_var = false ->
     forall files d rest,
       listing = Entries (files ++ (d, true) :: rest) ->
       Forall (fun e => snd e = false) files ->
       resolve_model_path sep env_var base listing = Some (base +:+ sep +:+ d)) /\
  (truthy env_var = false ->
     (forall l, listing = Entries l -> Forall (fun e => snd e = false) l) ->
     truthy (resolve_model_path sep env_var base listing) = false).
Proof.
  unfold resolve_model_path. repeat split.
  - by intros ->.
  - intros -> files d rest -> Hfiles.
    assert (Hf : List.filter snd (files ++ (d, true) :: rest)
                 = (d, true) :: List.filter snd rest).
    { induction Hfiles as [ | [n b] files Hb _ IH]; [ done | ].
      simpl in Hb. subst b. exact IH. }
    by rewrite Hf.
  - intros Henv Hnone. rewrite Henv.
    destruct listing as [ | | l]; try exact Henv.
    specialize (Hnone l eq_refl).
    assert (Hf : List.filter snd l = []).
    { induction Hnone as [ | [n b] l Hb _ IH]; [ done | ].
      simpl in Hb. subst b. exact IH. }
    by rewrite Hf.
Qed.

Lemma model_path_resolution_witness :
  resolve_model_path "/" (Some "") "models/whisper"
    (Entries [("README.md", false); ("base.en", true); ("large-v3", true)])
  = Some "models/whisper/base.en".
Proof.
  destruct (model_path_resolution "/" (Some "") "models/whisper"
              (Entries [("README.md", false); ("base.en", true); ("large-v3", true)]))
    as (_ & Hdir & _).
  apply (Hdir eq_refl [("README.md", false)] "base.en" [("large-v3", true)] eq_refl).
  by repeat constructor.
Defined.

(** * Dragging the window *)

Lemma mouseMoveEvent_drag (p : QPoint) (g : Placement) (d : QPoint) :
  drag_position g = Some d -> point_truthy d = true ->
  mouseMoveEvent true p g = mkPlacement (point_sub p d) (Some d).
Proof. intros Hd Ht. unfold mouseMoveEvent. by rewrite Hd, Ht. Qed.

Lemma drag_moves_spec (positions : list QPoint) :
  forall g d,
    drag_position g = Some d -> point_truthy d = true ->
    drag_moves positions g
    = mkPlacement (default (top_left g) ((fun p => point_sub p d) <$> last positions))
                  (Some d).
Proof.
  induction positions as [ | p positions IH]; intros g d Hd Ht.
  - simpl. destruct g. simpl in *. by rewrite Hd.
  - change (drag_moves (p :: positions) g)
      with (drag_moves positions (mouseMoveEvent true p g)).
    rewrite (mouseMoveEvent_drag p g d Hd Ht).
    rewrite (IH (mkPlacement (point_sub p d) (Some d)) d eq_refl Ht).
    rewrite last_cons. cbn [top_left].
    by destruct (last positions).
Qed.

(** X22: the window follows the pointer.  After a press with the left
    button at [press_at] that is not exactly on the window's top-left
    corner, any sequence of moves with only the left button held leaves the
    window where the last move puts it: displaced from its position at the
    press by exactly what the pointer moved since then, whatever path it
    took.  A press exactly on the corner records the null point, which
    counts as no drag position, and the moves do nothing. *)
Theorem window_follows_pointer
  (g : Placement) (press_at : QPoint) (moves : list QPoint) (last_at : QPoint) :
  let pressed := mousePressEvent true press_at g in
  (press_at <> top_left g ->
     top_left (drag_moves (moves ++ [last_at]) pressed)
     = (fst (top_left g) + (fst last_at - fst press_at),
        snd (top_left g) + (snd last_at - snd press_at))) /\
  (press_at = top_left g ->
     top_left (drag_moves (moves ++ [last_at]) pressed) = top_left g).
Proof.
  intros pressed. split.
  - intros Hne.
    assert (Ht : point_truthy (point_sub press_at (top_left g)) = true).
    { unfold point_truthy, point_sub. cbn [fst snd].
      apply negb_true_iff, andb_false_iff.
      destruct press_at as [px py], (top_left g) as [tx ty]. cbn [fst snd].
      destruct (Z.eqb_spec (px - tx) 0); [ | by left ].
      destruct (Z.eqb_spec (py - ty) 0); [ | by right ].
      exfalso. apply Hne. f_equal; lia. }
    rewrite (drag_moves_spec _ pressed _ eq_refl Ht).
    rewrite last_snoc. cbn [top_left fmap option_fmap option_map default].
    unfold point_sub, id. cbn [fst snd]. f_equal; lia.
  - intros ->. subst pressed.
    assert (Hnull : forall positions gg,
              drag_position gg = Some (0, 0) -> drag_moves positions gg = gg).
    { induction positions as [ | p positions IH]; intros gg Hgg; [ done | ].
      change (drag_moves (p :: positions) gg)
        with (drag_moves positions (mouseMoveEvent true p gg)).
      assert (Hstay : mouseMoveEvent true p gg = gg).
      { unfold mouseMoveEvent. by rewrite Hgg. }
      rewrite Hstay. by apply IH. }
    rewrite Hnull; [ done | ].
    unfold mousePressEvent, point_sub. cbn [drag_position].
    by rewrite !Z.sub_diag.
Qed.

Lemma window_follows_pointer_witness :
  top_left
    (drag_moves ([(140, 160); (90, 400)] ++ [(300, 250)])
       (mousePressEvent true (130, 150) (mkPlacement (100, 100) None)))
  = (270, 200).
Proof.
  destruct (window_follows_pointer (mkPlacement (100, 100) None) (130, 150)
              [(140, 160); (90, 400)] (300, 250))
    as (Hmove & _).
  apply Hmove. discriminate.
Defined.

(** * When a load is attempted, and what is logged for a batch *)

(** X23: start-up calls the [WhisperModel] constructor exactly when the
    engine library could be imported and either a model path is set or the
    user agreed to the download; a declined or failing dialog never leads
    to a load.  The first call is then for the model path when one is set
    and for ["tiny"] otherwise, on CUDA with float16; and with a model path
    set the dialog's answer plays no part. *)
Theorem load_attempted_iff (env : Env) :
  let attempts := load_attempts (trace (load_engine env initial_state)) in
  let wanted := truthy (model_path env) = true \/ consent env = AnswerYes in
  let ref := if truthy (model_path env) then or_default (model_path env) "" else "tiny" in
  (attempts <> [] <-> (exists v, faster_whisper env = Imported v) /\ wanted) /\
  (attempts <> [] -> head attempts = Some (EngineLoad ref cuda float16)) /\
  (truthy (model_path env) = true ->
   forall answer,
     load_engine
       (mkEnv (faster_whisper env) (model_path env) answer (load env)
              (config_device_name env) (devices env) (open_stream env) (events env))
       initial_state
     = load_engine env initial_state).
Proof.
  intros attempts wanted ref. split; [ | split ].
  - subst attempts wanted.
    unfold load_engine, gpu_attempt, cpu_fallback, WhisperModel.
    destruct (faster_whisper env) as [v | ie];
      destruct (truthy (model_path env)); destruct (consent env);
      repeat match goal with
             | |- context [load env ?r ?d ?c] => destruct (load env r d c)
             end;
      (split;
       [ intros H;
         first [ by (exfalso; apply H)
               | split; [ by eexists | first [ by left | by right ] ] ]
       | intros [[v' Hv] [Hp | Hc]]; first [ discriminate | done ] ]).
  - subst attempts ref.
    unfold load_engine, gpu_attempt, cpu_fallback, WhisperModel.
    destruct (faster_whisper env) as [v | ie];
      destruct (truthy (model_path env)); destruct (consent env);
      repeat match goal with
             | |- context [load env ?r ?d ?c] => destruct (load env r d c)
             end;
      intros H; first [ reflexivity | by (exfalso; apply H) ].
  - intros Ht answer.
    unfold load_engine, gpu_attempt, cpu_fallback, WhisperModel.
    cbn [faster_whisper model_path consent load]. by rewrite Ht.
Qed.

Lemma load_attempted_iff_witness :
  head (load_attempts (trace (load_engine (sample_env false false None []) initial_state)))
  = Some (EngineLoad "models/whisper/base" cuda float16).
Proof.
  destruct (load_attempted_iff (sample_env false false None [])) as (_ & Hhead & _).
  apply Hhead. discriminate.
Defined.

Lemma consume_lines_segments_of (b : bool) (texts : list string) :
  consume_lines b (segments_of texts)
  = concat (map (fun t => (if b then [] else [t]) ++ ["[TRANSCRIPTION] " +:+ t]) texts).
Proof.
  induction texts as [ | t texts IH]; [ done | ].
  change (segments_of (t :: texts)) with (SegNext t (segments_of texts)).
  cbn [consume_lines map concat]. rewrite IH. by rewrite <- app_assoc.
Qed.

(** X24: when the engine returns its segments without raising, the tick
    writes one [[TRANSCRIPTION]] line per segment, in the engine's order,
    right after the call; each segment also goes to the caption window, or,
    while there is no window, to stdout as a bare line before its tagged
    line. *)
Theorem segments_logged_in_order
  (engine : Engine) (st : State) (m : Model) (texts : list string) :
  model st = Some m ->
  PyQueue.items (audio_q st) <> [] ->
  is_silent (batch_of (audio_q st)) = false ->
  engine m (batch_of (audio_q st)) true "en" = segments_of texts ->
  let st' := process_audio engine st in
  trace st'
    = trace st ++
      EngineTranscribe m (batch_of (audio_q st)) true "en"
        :: map Print
             (concat (map (fun t => (if has_window st then [] else [t])
                                      ++ ["[TRANSCRIPTION] " +:+ t]) texts)) /\
  window st' = option_map (show_all texts) (window st).
Proof.
  intros Hm Hne Hloud Hout st'.
  destruct (process_audio_engine engine st m Hm Hne Hloud) as (_ & _ & Hw & Ht).
  fold st' in Hw, Ht. rewrite Hout in Hw, Ht.
  rewrite stream_texts_segments_of in Hw.
  rewrite consume_lines_segments_of in Ht. auto.
Qed.

Lemma segments_logged_in_order_witness :
  trace (process_audio (fixed_engine ["good"; "morning"])
           (mkState (PyQueue.mk 20 [[4000]]) (Some tiny_on_cpu) None []))
  = [EngineTranscribe tiny_on_cpu [(4000 # 32768)%Q] true "en";
     Print "good"; Print "[TRANSCRIPTION] good";
     Print "morning"; Print "[TRANSCRIPTION] morning"].
Proof.
  destruct (segments_logged_in_order (fixed_engine ["good"; "morning"])
              (mkState (PyQueue.mk 20 [[4000]]) (Some tiny_on_cpu) None [])
              tiny_on_cpu ["good"; "morning"])
    as (Ht & _); [ reflexivity | discriminate | reflexivity | reflexivity | ].
  exact Ht.
Defined.
